(** * bun-why: the reverse dependency explainer of [src/index.js]

    A shallow embedding of [explain], [makeWhy], [collectLocationsFromSpecs],
    [readLockfile], [iterateLocations], [format], [format1], [rangeOf] and
    [expandLocation], followed by the properties of the specification that
    were checked against them.

    Conventions of the embedding.
    - A JavaScript string is a [string]: a sequence of code units.  Every
      string operation of the source looks for ASCII characters only.
    - The object [packages] produced by the JSON parser is the list of its own
      entries, with distinct keys, in the order in which [for ... in]
      enumerates them; a property read [packages[k]] also sees the names
      inherited from [Object.prototype].  The objects [dependencies] and
      [optionalDependencies] are lists of entries in the same way.
    - [readLockfile] is given the parsed content of [bun.lock]; when the file
      cannot be read or parsed, [explain] and [format] fail before any of the
      code below runs.
    - [dependents] is a prototype-less object that is only read by key and
      updated by key: a [gmap].
    - The [Set] named [collected] is the list of its elements in insertion
      order.
    - A call completes normally ([Ok]) or by a thrown exception ([Throw]).
    - [makeWhy] recurses without a bound: it takes a fuel, and [None] stands
      for a recursion that has not returned within the fuel.
    - [semver/functions/satisfies], [validate-npm-package-name] and the
      colour capability of the terminal are not part of the repository: they
      are parameters. *)

From Stdlib Require Import ZArith Ascii String List Lia Bool.
From stdpp Require Import base option list strings gmap.

Local Open Scope Z_scope.

(** ** JavaScript strings *)

Module JsString.

Definition quote : string := String (ascii_of_nat 34) EmptyString.
Definition newline : string := String (ascii_of_nat 10) EmptyString.
Definition escape : string := String (ascii_of_nat 27) EmptyString.
Definition backslash : ascii := ascii_of_nat 92.

Fixpoint take (n : nat) (s : string) : string :=
  match n, s with
  | S k, String c r => String c (take k r)
  | _, _ => EmptyString
  end.

Fixpoint drop (n : nat) (s : string) : string :=
  match n, s with
  | S k, String _ r => drop k r
  | _, _ => s
  end.

(** Position of the first [c] in [s], counted from the start of [s]. *)
Fixpoint find (c : ascii) (s : string) : option nat :=
  match s with
  | EmptyString => None
  | String d r => if Ascii.eqb d c then Some O else option_map S (find c r)
  end.

(** [s.indexOf(c, from)]: -1 when there is no occurrence at or after
    [from]. *)
Definition indexOf (s : string) (c : ascii) (from : nat) : Z :=
  match find c (drop from s) with
  | Some k => Z.of_nat (from + k)
  | None => -1
  end.

(** A relative index of [slice], brought into [0 .. len]. *)
Definition clamp (len i : Z) : Z :=
  if i <? 0 then Z.max (len + i) 0 else Z.min i len.

(** [s.slice(start, stop)] and, with [None], [s.slice(start)]. *)
Definition slice (s : string) (start : Z) (stop : option Z) : string :=
  let len := Z.of_nat (String.length s) in
  let from := clamp len start in
  let to := match stop with Some e => clamp len e | None => len end in
  take (Z.to_nat (to - from)) (drop (Z.to_nat from) s).

Definition startsWith (s p : string) : bool := String.eqb (take (String.length p) s) p.

Definition endsWith (s p : string) : bool :=
  String.eqb (drop (String.length s - String.length p) s) p.

(** [s[0] == c]; the first code unit of the empty string is [undefined]. *)
Definition firstIs (s : string) (c : ascii) : bool :=
  match s with
  | String d _ => Ascii.eqb d c
  | EmptyString => false
  end.

(** [s.split(c)], with the current segment accumulated in reverse. *)
Fixpoint split_go (c : ascii) (s : string) (cur : list ascii) : list string :=
  match s with
  | EmptyString => [string_of_list_ascii (rev cur)]
  | String d r =>
      if Ascii.eqb d c
      then string_of_list_ascii (rev cur) :: split_go c r []
      else split_go c r (d :: cur)
  end.

Definition split (s : string) (c : ascii) : list string := split_go c s [].

(** [parts.join(sep)] *)
Fixpoint join (sep : string) (parts : list string) : string :=
  match parts with
  | [] => EmptyString
  | [p] => p
  | p :: rest => p +:+ sep +:+ join sep rest
  end.

(** [s.repeat(n)] *)
Fixpoint repeat (s : string) (n : nat) : string :=
  match n with
  | O => EmptyString
  | S k => s +:+ repeat s k
  end.

(** [s.replace(/c/g, d)] for a single character [c]. *)
Fixpoint replaceChar (c d : ascii) (s : string) : string :=
  match s with
  | EmptyString => EmptyString
  | String e r => String (if Ascii.eqb e c then d else e) (replaceChar c d r)
  end.

(** [s.replace(/pat/g, by)] for a literal, non-empty [pat]: the matches are
    taken from left to right and do not overlap; [skip] counts the code
    units of the current match that are still to be passed over. *)
Fixpoint replaceAll_go (pat by_ : string) (skip : nat) (s : string) : string :=
  match s with
  | EmptyString => EmptyString
  | String e r =>
      match skip with
      | S k => replaceAll_go pat by_ k r
      | O =>
          if startsWith s pat
          then by_ +:+ replaceAll_go pat by_ (String.length pat - 1) r
          else String e (replaceAll_go pat by_ O r)
      end
  end.

Definition replaceAll (pat by_ : string) (s : string) : string :=
  replaceAll_go pat by_ O s.

(** [s || d] on strings: the empty string is falsy. *)
Definition orElse (s d : string) : string :=
  match s with
  | EmptyString => d
  | _ => s
  end.

End JsString.

(** ** The collaborators that are not part of the repository

    [index.js] imports the range check of [semver] and the name check of
    [validate-npm-package-name].  The program below takes both as
    parameters.  This module gives one instance of each, for the concrete
    lockfiles of the examples: the range check on versions [x.y.z] against the
    ranges [*], [x.y.z] and [^x.y.z] (every other range is unsatisfied, as
    [semver] does for a range it cannot read), and the name check on ASCII
    names. *)

Module Npm.

Fixpoint digits (s : string) (acc : nat) : option nat :=
  match s with
  | EmptyString => Some acc
  | String c r =>
      match Ascii.is_nat c with
      | Some d => digits r (10 * acc + d)%nat
      | None => None
      end
  end.

Definition number (s : string) : option nat :=
  match s with
  | EmptyString => None
  | _ => digits s O
  end.

Definition triple (s : string) : option (nat * nat * nat) :=
  match JsString.split s "." with
  | [a; b; c] =>
      match number a, number b, number c with
      | Some x, Some y, Some z => Some (x, y, z)
      | _, _, _ => None
      end
  | _ => None
  end.

(** [^x.y.z] allows the changes that keep the leftmost non-zero number. *)
Definition caret (v r : nat * nat * nat) : bool :=
  let '(a, b, c) := v in
  let '(x, y, z) := r in
  match x, y with
  | O, O => Nat.eqb a O && Nat.eqb b O && Nat.eqb c z
  | O, _ => Nat.eqb a O && Nat.eqb b y && Nat.leb z c
  | _, _ => Nat.eqb a x && (Nat.ltb y b || (Nat.eqb b y && Nat.leb z c))
  end.

Definition satisfies (version range : string) : bool :=
  match triple version with
  | None => false
  | Some v =>
      match range with
      | EmptyString => true
      | String c r =>
          if String.eqb range "*" then true
          else if Ascii.eqb c "^"
          then match triple r with Some t => caret v t | None => false end
          else match triple range with
               | Some t => bool_decide (v = t)
               | None => false
               end
      end
  end.

Definition lowerChar (c : ascii) : ascii :=
  let n := nat_of_ascii c in
  if Nat.leb 65 n && Nat.leb n 90 then ascii_of_nat (n + 32) else c.

Fixpoint lower (s : string) : string :=
  match s with
  | EmptyString => EmptyString
  | String c r => String (lowerChar c) (lower r)
  end.

Fixpoint all (p : ascii -> bool) (s : string) : bool :=
  match s with
  | EmptyString => true
  | String c r => p c && all p r
  end.

Fixpoint last (s : string) : option ascii :=
  match s with
  | EmptyString => None
  | String c EmptyString => Some c
  | String _ r => last r
  end.

(** The characters that [encodeURIComponent] leaves alone. *)
Definition urlSafe (c : ascii) : bool :=
  let n := nat_of_ascii c in
  (Nat.leb 48 n && Nat.leb n 57) || (Nat.leb 65 n && Nat.leb n 90)
  || (Nat.leb 97 n && Nat.leb n 122)
  || match JsString.find c "-_.!~*'()" with Some _ => true | None => false end.

(** [@user/pkg] with both parts URL-safe. *)
Definition scoped (name : string) : bool :=
  match name with
  | String "@" r =>
      match JsString.split r "/" with
      | [user; pkg] =>
          negb (String.eqb user "") && negb (String.eqb pkg "")
          && all urlSafe user && all urlSafe pkg
      | _ => false
      end
  | _ => false
  end.

Definition spaced (name : string) : bool :=
  match name, last name with
  | String c _, Some d => Ascii.is_space c || Ascii.is_space d
  | _, _ => false
  end.

(** [validate(name).validForOldPackages]: no error was recorded. *)
Definition validForOldPackages (name : string) : bool :=
  negb (String.eqb name "")
  && negb (JsString.firstIs name ".")
  && negb (JsString.firstIs name "_")
  && negb (spaced name)
  && negb (String.eqb (lower name) "node_modules")
  && negb (String.eqb (lower name) "favicon.ico")
  && (all urlSafe name || scoped name).

End Npm.

(** ** Exceptions *)

Inductive exn : Type :=
  | TypeError
  | Error (message : string).

Inductive completion (A : Type) : Type :=
  | Ok (a : A)
  | Throw (e : exn).

Arguments Ok {A} a.
Arguments Throw {A} e.

(** Sequencing: an exception ends the computation. *)
#[global] Instance completion_bind : MBind completion :=
  fun A B (k : A -> completion B) (r : completion A) =>
    match r with
    | Ok a => k a
    | Throw e => Throw e
    end.

(** A loop whose body may throw: [for (x of l) acc = body(acc, x)]. *)
Fixpoint foldM {A S : Type} (body : S -> A -> completion S) (l : list A) (acc : S) : completion S :=
  match l with
  | [] => Ok acc
  | x :: rest => acc' ← body acc x; foldM body rest acc'
  end.

(** [l.map(f)] for an [f] that may throw or may not return: the first call
    that does not return a value decides. *)
Fixpoint mapOutcome {A B : Type} (f : A -> option (completion B)) (l : list A)
  : option (completion (list B)) :=
  match l with
  | [] => Some (Ok [])
  | x :: rest =>
      match f x with
      | None => None
      | Some (Throw e) => Some (Throw e)
      | Some (Ok y) =>
          match mapOutcome f rest with
          | None => None
          | Some (Throw e) => Some (Throw e)
          | Some (Ok ys) => Some (Ok (y :: ys))
          end
      end
  end.

(** ** The data model *)

(** The third element of a package record. *)
Record PackageMeta : Type := {
  dependencies : option (list (string * string));
  optionalDependencies : option (list (string * string)) }.

(** A package record: the typedef [BunLockfile] of the source. *)
Record PackageInfo : Type := {
  name_version : string;
  tarball_if_not_default_registry : string;
  package : PackageMeta;
  integrity : option string }.

Abbreviation Packages := (list (string * PackageInfo)).

Record BunLockfile : Type := { packages : Packages }.

(** The typedef [Why].  An element of [dependents] is what [makeWhy] returned
    for it: a node, or [undefined]. *)
#[local] Unset Elimination Schemes.
Inductive Why : Type :=
  mkWhy { name : string;
          version : string;
          location : string;
          dependents : list (option Why) }.
#[local] Set Elimination Schemes.

(** ** Objects created by the JSON parser *)

Module JsObject.

(** The own property [k], if there is one. *)
Fixpoint getOwn {A : Type} (o : list (string * A)) (k : string) : option A :=
  match o with
  | [] => None
  | (k', v) :: rest => if String.eqb k' k then Some v else getOwn rest k
  end.

(** [Object.hasOwn(o, k)] *)
Definition hasOwn {A : Type} (o : list (string * A)) (k : string) : bool :=
  match getOwn o k with
  | Some _ => true
  | None => false
  end.

Definition keys {A : Type} (o : list (string * A)) : list string := map fst o.

(** The property names of [Object.prototype].  Each of them reads as a
    function or as the prototype itself: a truthy value, none of whose
    indexed properties is defined. *)
Definition ObjectPrototype : list string :=
  ["constructor"; "__proto__"; "hasOwnProperty"; "isPrototypeOf";
   "propertyIsEnumerable"; "toLocaleString"; "toString"; "valueOf";
   "__defineGetter__"; "__defineSetter__"; "__lookupGetter__";
   "__lookupSetter__"].

Inductive property (A : Type) : Type :=
  | Own (a : A)
  | Inherited
  | Undefined.

Arguments Own {A} a.
Arguments Inherited {A}.
Arguments Undefined {A}.

(** The property read [o[k]]. *)
Definition get {A : Type} (o : list (string * A)) (k : string) : property A :=
  match getOwn o k with
  | Some v => Own v
  | None => if bool_decide (k ∈ ObjectPrototype) then Inherited else Undefined
  end.

Definition truthy {A : Type} (p : property A) : bool :=
  match p with
  | Own _ | Inherited => true
  | Undefined => false
  end.

End JsObject.

Import JsObject.

(** ** The program *)

Section Program.

(** [satisfies(version, range)] of [semver]. *)
Variable satisfies : string -> string -> bool.

(** [validate(name).validForOldPackages] of [validate-npm-package-name]. *)
Variable validForOldPackages : string -> bool.

(** [tty.WriteStream.prototype.hasColors()], read once when the module is
    loaded. *)
Variable hasColors : bool.

(** *** [iterateLocations] *)

(** The first loop of [iterateLocations]: a part that starts with [@] takes
    the next raw part with it; past the end of [raw] the next part is
    [undefined]. *)
Fixpoint atomicParts (raw : list string) : list string :=
  match raw with
  | [] => []
  | part :: rest =>
      if JsString.firstIs part "@"
      then match rest with
           | next :: rest' => (part +:+ "/" +:+ next) :: atomicParts rest'
           | [] => [part +:+ "/" +:+ "undefined"]
           end
      else part :: atomicParts rest
  end.

(** The second loop: [for (let i = parts.length; i > 0; i--)], started at
    [i]. *)
Fixpoint yieldPrefixes (parts : list string) (name : string) (i : nat) : list string :=
  match i with
  | O => []
  | S j => (JsString.join "/" (firstn i parts) +:+ "/" +:+ name) :: yieldPrefixes parts name j
  end.

(** The values the generator yields, in order. *)
Definition iterateLocations (dir name : string) : list string :=
  let parts := atomicParts (JsString.split dir "/") in
  yieldPrefixes parts name (length parts) ++ [name].

(** *** [readLockfile] *)

(** The loop over [iterateLocations(location, depName)] in [scanDeps]: the
    candidate at which the loop breaks, if it does. *)
Fixpoint firstMatch (packages : Packages) (range : string) (candidates : list string)
  : completion (option string) :=
  match candidates with
  | [] => Ok None
  | maybeLoc :: rest =>
      match get packages maybeLoc with
      | Undefined => firstMatch packages range rest
      | Inherited => Throw TypeError
      | Own info =>
          let i := JsString.indexOf (name_version info) "@" 1 in
          if 0 <? i
          then let depVersion := JsString.slice (name_version info) (i + 1) None in
               if satisfies depVersion range
               then Ok (Some maybeLoc)
               else firstMatch packages range rest
          else firstMatch packages range rest
      end
  end.

(** [dependents[maybeLoc] ??= []; dependents[maybeLoc].push(location)] *)
Definition pushDependent (dependents : gmap string (list string)) (maybeLoc location : string)
  : gmap string (list string) :=
  <[maybeLoc := default [] (dependents !! maybeLoc) ++ [location]]> dependents.

(** One turn of the loop over [dependencies] in [scanDeps]. *)
Definition scanDep (packages : Packages) (location : string)
  (dependents : gmap string (list string)) (dep : string * string)
  : completion (gmap string (list string)) :=
  found ← firstMatch packages dep.2 (iterateLocations location dep.1);
  match found with
  | Some maybeLoc => Ok (pushDependent dependents maybeLoc location)
  | None => Ok dependents
  end.

Definition scanDeps (packages : Packages) (location : string)
  (deps : option (list (string * string))) (dependents : gmap string (list string))
  : completion (gmap string (list string)) :=
  match deps with
  | Some l => foldM (scanDep packages location) l dependents
  | None => Ok dependents
  end.

(** One turn of the loop over the locations of the lockfile. *)
Definition scanLocation (packages : Packages) (dependents : gmap string (list string))
  (entry : string * PackageInfo) : completion (gmap string (list string)) :=
  let pkg := package entry.2 in
  dependents' ← scanDeps packages entry.1 (dependencies pkg) dependents;
  scanDeps packages entry.1 (optionalDependencies pkg) dependents'.

(** [readLockfile], on the parsed content of [bun.lock]. *)
Definition readLockfile (lockfile : BunLockfile)
  : completion (Packages * gmap string (list string)) :=
  dependents ← foldM (scanLocation (packages lockfile)) (packages lockfile) ∅;
  Ok (packages lockfile, dependents).

(** *** [makeWhy] *)

Fixpoint makeWhy (fuel : nat) (location : string) (packages : Packages)
  (dependents : gmap string (list string)) : option (completion (option Why)) :=
  match fuel with
  | O => None
  | S fuel' =>
      match getOwn packages location with
      | None => Some (Throw TypeError)
      | Some info =>
          let id := name_version info in
          let i := JsString.indexOf id "@" 1 in
          if i <=? 0 then Some (Ok None)
          else
            let name := JsString.slice id 0 (Some i) in
            let version := JsString.slice id (i + 1) None in
            match dependents !! location with
            | None => Some (Ok (Some (mkWhy name version location [])))
            | Some locs =>
                match mapOutcome (fun loc => makeWhy fuel' loc packages dependents) locs with
                | None => None
                | Some (Throw e) => Some (Throw e)
                | Some (Ok ds) => Some (Ok (Some (mkWhy name version location ds)))
                end
            end
      end
  end.

(** *** [collectLocationsFromSpecs] *)

(** [collected.add(x)] *)
Definition add (x : string) (collected : list string) : list string :=
  if bool_decide (x ∈ collected) then collected else collected ++ [x].

Definition byPackageName (packages : Packages) (name : string) (collected : list string)
  : list string :=
  let collected := if hasOwn packages name then add name collected else collected in
  let suffix := "/" +:+ name in
  fold_left
    (fun collected (entry : string * PackageInfo) =>
       if JsString.endsWith entry.1 suffix
       then let id := name_version entry.2 in
            let i := JsString.indexOf id "@" 1 in
            if String.eqb (JsString.slice id 0 (Some i)) name
            then add entry.1 collected
            else collected
       else collected)
    packages collected.

Definition byLocation (packages : Packages) (location : string) (collected : list string)
  : list string :=
  if hasOwn packages location then add location collected else collected.

Definition bySpec (packages : Packages) (name range : string) (collected : list string)
  : list string :=
  if String.eqb range "*" then byPackageName packages name collected
  else
    fold_left
      (fun collected (entry : string * PackageInfo) =>
         let id := name_version entry.2 in
         let i := JsString.indexOf id "@" 1 in
         if (0 <? i) && String.eqb (JsString.slice id 0 (Some i)) name
         then let version := JsString.slice id (i + 1) None in
              if satisfies version range then add entry.1 collected else collected
         else collected)
      packages collected.

(** [spec.replace(/\\/g, '/').replace(/\/node_modules\//g, '/')] *)
Definition normalize (spec : string) : string :=
  JsString.replaceAll "/node_modules/" "/" (JsString.replaceChar JsString.backslash "/" spec).

Definition invalidSpec (spec : string) : exn :=
  Error ("Invalid package spec: " +:+ spec +:+ ", expected "
         +:+ JsString.quote +:+ "name@range" +:+ JsString.quote
         +:+ " or " +:+ JsString.quote +:+ "name" +:+ JsString.quote).

(** One turn of the loop over [specs]. *)
Definition collectSpec (packages : Packages) (collected : list string) (spec : string)
  : completion (list string) :=
  if validForOldPackages spec then Ok (byPackageName packages spec collected)
  else
    let maybeLoc := normalize spec in
    if truthy (get packages maybeLoc) then Ok (byLocation packages maybeLoc collected)
    else
      let i := JsString.indexOf spec "@" 1 in
      if 0 <? i
      then Ok (bySpec packages (JsString.slice spec 0 (Some i))
                 (JsString.orElse (JsString.slice spec (i + 1) None) "*") collected)
      else Throw (invalidSpec spec).

Definition collectLocationsFromSpecs (packages : Packages) (specs : list string)
  : completion (list string) :=
  foldM (collectSpec packages) specs [].

(** *** [explain] *)

(** [.filter(x => !!x)] on the results of [makeWhy]. *)
Definition present (l : list (option Why)) : list Why := omap id l.

Definition explain (fuel : nat) (lockfile : BunLockfile) (specs : list string)
  : option (completion (list Why)) :=
  match readLockfile lockfile with
  | Throw e => Some (Throw e)
  | Ok (packages, dependents) =>
      match collectLocationsFromSpecs packages specs with
      | Throw e => Some (Throw e)
      | Ok entryPoints =>
          match mapOutcome (fun location => makeWhy fuel location packages dependents)
                  entryPoints with
          | None => None
          | Some (Throw e) => Some (Throw e)
          | Some (Ok whys) => Some (Ok (present whys))
          end
      end
  end.

(** *** [format] *)

Definition dim (str : string) : string :=
  if hasColors
  then JsString.escape +:+ "[2m" +:+ str +:+ JsString.escape +:+ "[22m"
  else str.

(** The loop of [expandLocation], before the leading [/] is cut. *)
Fixpoint expandParts (parts : list string) : string :=
  match parts with
  | [] => ""
  | part :: rest =>
      if JsString.firstIs part "@"
      then match rest with
           | next :: rest' => "/node_modules/" +:+ part +:+ "/" +:+ next +:+ expandParts rest'
           | [] => "/node_modules/" +:+ part +:+ "/" +:+ "undefined"
           end
      else "/node_modules/" +:+ part +:+ expandParts rest
  end.

Definition expandLocation (location : string) : string :=
  JsString.slice (expandParts (JsString.split location "/")) 1 None.

(** One loop of [rangeOf]. *)
Definition declaredRange (deps : option (list (string * string))) (name version : string)
  : option string :=
  match deps with
  | Some l =>
      snd <$> List.find (fun dep : string * string =>
                           String.eqb dep.1 name && satisfies version dep.2) l
  | None => None
  end.

(** [rangeOf]; [None] is the [undefined] of a function that ends without
    [return]. *)
Definition rangeOf (info : PackageInfo) (name version : string) : option string :=
  let pkg := package info in
  match declaredRange (dependencies pkg) name version with
  | Some range => Some range
  | None => declaredRange (optionalDependencies pkg) name version
  end.

(** [rangeOf(...) || '*'] *)
Definition rangeOrStar (range : option string) : string :=
  match range with
  | Some r => JsString.orElse r "*"
  | None => "*"
  end.

(** The first [push] of [format1]. *)
Definition pushHead (out : list string) (packages : Packages) (why : Why) (depth : nat)
  (dependency : option Why) : completion (list string) :=
  let indent := JsString.repeat "  " depth in
  match depth, dependency with
  | S _, Some dependency =>
      match getOwn packages (location why) with
      | Some info =>
          let range := rangeOrStar (rangeOf info (name dependency) (version dependency)) in
          Ok (out ++ [indent +:+ name dependency +:+ "@" +:+ range +:+ " from "
                      +:+ name why +:+ "@" +:+ version why])
      | None => Throw TypeError
      end
  | _, _ => Ok (out ++ [""; indent +:+ name why +:+ "@" +:+ version why])
  end.

(** [format1] on a node; [format1] on [undefined] throws at [why.location],
    which is the [None] case of the loop over [why.dependents]. *)
Fixpoint format1 (out : list string) (packages : Packages) (why : Why) (depth : nat)
  (dependency : option Why) {struct why} : completion (list string) :=
  out ← pushHead out packages why depth dependency;
  let out := out ++ [JsString.repeat "  " depth +:+ dim (expandLocation (location why))] in
  (fix each (deps : list (option Why)) (out : list string) : completion (list string) :=
     match deps with
     | [] => Ok out
     | None :: _ => Throw TypeError
     | Some dep :: rest =>
         out ← format1 out packages dep (S depth) (Some why);
         each rest out
     end) (dependents why) out.

Definition format (lockfile : BunLockfile) (result : option (list Why)) : completion string :=
  match result with
  | None | Some [] => Ok ""
  | Some whys =>
      read ← readLockfile lockfile;
      lines ← foldM (fun lines why => format1 lines read.1 why O None) whys [];
      Ok (JsString.join JsString.newline (tail lines))
  end.

End Program.

(** The loop over [why.dependents] at the end of [format1]. *)
Fixpoint formatDependents (satisfies : string -> string -> bool) (hasColors : bool)
  (out : list string) (packages : Packages) (deps : list (option Why)) (depth : nat)
  (why : Why) : completion (list string) :=
  match deps with
  | [] => Ok out
  | None :: _ => Throw TypeError
  | Some dep :: rest =>
      out ← format1 satisfies hasColors out packages dep depth (Some why);
      formatDependents satisfies hasColors out packages rest depth why
  end.

(** [cli.js]: [let result = await mod.explain(specs)] and then
    [let report = await mod.format(result)]. *)
Definition report (satisfies : string -> string -> bool) (validForOldPackages : string -> bool)
  (hasColors : bool) (fuel : nat) (lockfile : BunLockfile) (specs : list string)
  : option (completion string) :=
  match explain satisfies validForOldPackages fuel lockfile specs with
  | Some (Ok result) => Some (format satisfies hasColors lockfile (Some result))
  | Some (Throw e) => Some (Throw e)
  | None => None
  end.

(** ** Notions of the specification *)

(** A tree all of whose nodes are present and located in the lockfile. *)
Fixpoint located (packages : Packages) (why : Why) : bool :=
  hasOwn packages (location why)
  && forallb (fun dep => match dep with
                         | Some w => located packages w
                         | None => false
                         end) (dependents why).

(** An atomic segment of a location: a plain name, or a [@scope/name] pair. *)
Definition atomicSegment (segment : string) : bool :=
  match JsString.split segment "/" with
  | [plain] => negb (JsString.firstIs plain "@")
  | [scope; _] => JsString.firstIs scope "@"
  | _ => false
  end.

(** The non-empty prefixes of a list, shortest first. *)
Fixpoint prefixes {A : Type} (l : list A) : list (list A) :=
  match l with
  | [] => []
  | x :: rest => [x] :: map (cons x) (prefixes rest)
  end.

(** The candidates the specification lists for a location given by its atomic
    segments: every prefix from the deepest to the shallowest, followed by
    [/] and the dependency name, and last the bare name. *)
Definition resolve_candidates (segments : list string) (name : string) : list string :=
  map (fun prefix => JsString.join "/" prefix +:+ "/" +:+ name) (rev (prefixes segments))
  ++ [name].

(** The dependents graph: [y] is recorded as a dependent of [x]. *)
Definition edge (dependents : gmap string (list string)) (x y : string) : Prop :=
  exists locs, dependents !! x = Some locs /\ y ∈ locs.

(** No location is reachable from itself through dependents edges. *)
Definition acyclic (dependents : gmap string (list string)) : Prop :=
  forall x, ~ tc (edge dependents) x x.

(** What [readLockfile] guarantees of the index it returns: a location with
    dependents is in the lockfile under an id that has a version, and every
    dependent is a location of the lockfile. *)
Definition indexed (packages : Packages) (dependents : gmap string (list string)) : Prop :=
  forall x locs, dependents !! x = Some locs ->
    (exists info, getOwn packages x = Some info
                  /\ 0 < JsString.indexOf (name_version info) "@" 1)
    /\ forall y, y ∈ locs -> y ∈ keys packages.

(** The ranges a package declares, in the order [rangeOf] and [scanDeps] go
    through them: [dependencies] first, [optionalDependencies] after. *)
Definition declarations (info : PackageInfo) : list (string * string) :=
  default [] (dependencies (package info)) ++ default [] (optionalDependencies (package info)).

(** The first declared range on [name] that [version] satisfies. *)
Definition firstSatisfied (satisfies : string -> string -> bool) (info : PackageInfo)
  (name version : string) : option string :=
  snd <$> List.find (fun dep : string * string =>
                       String.eqb dep.1 name && satisfies version dep.2)
            (declarations info).

(** A candidate that exists in the lockfile and whose version satisfies the
    range. *)
Definition eligible (satisfies : string -> string -> bool) (packages : Packages)
  (range candidate : string) : Prop :=
  exists info,
    getOwn packages candidate = Some info
    /\ 0 < JsString.indexOf (name_version info) "@" 1
    /\ satisfies (JsString.slice (name_version info)
                    (JsString.indexOf (name_version info) "@" 1 + 1) None) range = true.

(** The dependents that the declarations [decls] of the package at [location]
    add to the list of [target]: [location] once for every declaration whose
    first eligible candidate is [target]. *)
Definition edgesOf (satisfies : string -> string -> bool) (packages : Packages)
  (location : string) (decls : list (string * string)) (target : string) : list string :=
  flat_map (fun dep : string * string =>
              match firstMatch satisfies packages dep.2 (iterateLocations location dep.1) with
              | Ok (Some maybeLoc) => if String.eqb maybeLoc target then [location] else []
              | _ => []
              end) decls.

(** The lines of a text. *)
Definition linesOf (text : string) : list string :=
  JsString.split text (ascii_of_nat 10).

(** The first line of a dependent node [D] under its parent [P] as the
    specification words it: the name of [D], the range [P] declares on it,
    then the name and version of [P]. *)
Definition dependentLineAsStated (satisfies : string -> string -> bool) (packages : Packages)
  (D P : Why) (depth : nat) : option string :=
  info ← getOwn packages (location P);
  Some (JsString.repeat "  " depth +:+ name D +:+ "@"
        +:+ default "*" (firstSatisfied satisfies info (name D) (version D))
        +:+ " from " +:+ name P +:+ "@" +:+ version P).

(** Position of the last [c] in [s]. *)
Fixpoint findLast (c : ascii) (s : string) : option nat :=
  match s with
  | EmptyString => None
  | String d r =>
      match findLast c r with
      | Some k => Some (S k)
      | None => if Ascii.eqb d c then Some O else None
      end
  end.

(** The split of a query as the specification words it: at the last [@]
    that is not the first character, the range being [*] when nothing
    follows. *)
Definition splitAsStated (spec : string) : option (string * string) :=
  match spec with
  | EmptyString => None
  | String _ r =>
      k ← findLast "@" r;
      Some (JsString.take (S k) spec, JsString.orElse (JsString.drop (S (S k)) spec) "*")
  end.

(** The third form of a query as the specification words it. *)
Definition matchAsStated (satisfies : string -> string -> bool) (packages : Packages)
  (spec : string) : completion (list string) :=
  match splitAsStated spec with
  | Some (name, range) => Ok (bySpec satisfies packages name range [])
  | None => Throw (invalidSpec spec)
  end.

(** Induction on a tree of [Why] nodes: the dependents that are present
    satisfy the property. *)
Section WhyInduction.

Variable P : Why -> Prop.

Hypothesis node : forall name version location dependents,
  Forall (fun dep => match dep with Some w => P w | None => True end) dependents ->
  P (mkWhy name version location dependents).

Fixpoint Why_nested_ind (why : Why) : P why :=
  match why with
  | mkWhy n v l ds =>
      node n v l ds
        ((fix all (ds : list (option Why)) :
            Forall (fun dep => match dep with Some w => P w | None => True end) ds :=
            match ds with
            | [] => @List.Forall_nil _ _
            | Some w :: rest => @List.Forall_cons _ _ (Some w) rest (Why_nested_ind w) (all rest)
            | None :: rest => @List.Forall_cons _ _ None rest I (all rest)
            end) ds)
  end.

End WhyInduction.

(** ** Lockfiles of the examples *)

Module Scenario.

Definition record (id : string) (deps optional : option (list (string * string)))
  : PackageInfo :=
  {| name_version := id;
     tarball_if_not_default_registry := "";
     package := {| dependencies := deps; optionalDependencies := optional |};
     integrity := None |}.

(** The lockfile of the end-to-end scenario. *)
Definition fooBar : BunLockfile :=
  {| packages := [("foo", record "foo@1.0.0" (Some [("bar", "^1.0.0")]) None);
                  ("foo/bar", record "bar@1.2.0" None None)] |}.

Definition fooNode : Why := mkWhy "foo" "1.0.0" "foo" [].
Definition barNode : Why := mkWhy "bar" "1.2.0" "foo/bar" [Some fooNode].

(** A dependent whose id has no [@]. *)
Definition malformedDependent : BunLockfile :=
  {| packages := [("bar", record "bar@1.0.0" None None);
                  ("baz", record "baz" (Some [("bar", "*")]) None)] |}.

(** An optional dependency that is not installed and is named like a
    property of [Object.prototype]. *)
Definition inheritedName : BunLockfile :=
  {| packages := [("foo", record "foo@1.0.0" None (Some [("constructor", "^1.0.0")]))] |}.

(** A scoped package nested under [foo]. *)
Definition scopedNested : Packages :=
  [("foo", record "foo@1.0.0" None None);
   ("foo/@scope/bar", record "@scope/bar@1.0.0" None None)].

(** A top-level copy of [bar] and a nested one. *)
Definition twoBars : Packages :=
  [("bar", record "bar@1.0.0" None None);
   ("foo", record "foo@1.0.0" (Some [("bar", "^2.0.0")]) None);
   ("foo/bar", record "bar@2.0.0" None None)].

(** A location key that reads like a query with a range. *)
Definition starKey : Packages :=
  [("foo", record "foo@1.0.0" None None);
   ("foo@*", record "foo@2.0.0" None None)].

(** Two packages that depend on each other. *)
Definition mutual : BunLockfile :=
  {| packages := [("a", record "a@1.0.0" (Some [("b", "*")]) None);
                  ("b", record "b@1.0.0" None (Some [("a", "*")]))] |}.

End Scenario.

(** ** Notions of the further properties *)

(** The nodes of a tree that are present. *)
Fixpoint nodes (why : Why) : nat :=
  S (list_sum (map (fun dep => match dep with
                               | Some w => nodes w
                               | None => O
                               end) (dependents why))).

(** A tree that [format] can print at the top level: below the root every
    node is present and located in the lockfile. *)
Definition printable (packages : Packages) (why : Why) : bool :=
  forallb (fun dep => match dep with
                      | Some w => located packages w
                      | None => false
                      end) (dependents why).

(** Every id of the lockfile has an [@] at index 1 or later. *)
Definition versioned (packages : Packages) : bool :=
  forallb (fun entry : string * PackageInfo =>
             0 <? JsString.indexOf (name_version entry.2) "@" 1) packages.

(** [pat] occurs in [s]. *)
Fixpoint occurs (pat s : string) : bool :=
  JsString.startsWith s pat
  || match s with
     | EmptyString => false
     | String _ r => occurs pat r
     end.

(** A query without backslash and without [/node_modules/]. *)
Definition plainPath (s : string) : bool :=
  match JsString.find JsString.backslash s with
  | Some _ => false
  | None => negb (occurs "/node_modules/" s)
  end.

(** The text of a list of strings put one after the other. *)
Fixpoint concatenate (l : list string) : string :=
  match l with
  | [] => EmptyString
  | s :: rest => s +:+ concatenate rest
  end.

(** The test of the loop of [byPackageName] on an entry of the lockfile. *)
Definition nameTest (name : string) (entry : string * PackageInfo) : bool :=
  JsString.endsWith entry.1 ("/" +:+ name)
  && String.eqb (JsString.slice (name_version entry.2) 0
                   (Some (JsString.indexOf (name_version entry.2) "@" 1))) name.

(** The test of the loop of [bySpec] on an entry of the lockfile. *)
Definition rangeTest (satisfies : string -> string -> bool) (name range : string)
  (entry : string * PackageInfo) : bool :=
  (0 <? JsString.indexOf (name_version entry.2) "@" 1)
  && String.eqb (JsString.slice (name_version entry.2) 0
                   (Some (JsString.indexOf (name_version entry.2) "@" 1))) name
  && satisfies (JsString.slice (name_version entry.2)
                  (JsString.indexOf (name_version entry.2) "@" 1 + 1) None) range.

(** The nodes of the dependents of a node that are present. *)
Definition nodesOf (deps : list (option Why)) : nat :=
  list_sum (map (fun dep => match dep with
                            | Some w => nodes w
                            | None => O
                            end) deps).

(** The dependents of a node are all present and located. *)
Definition allLocated (packages : Packages) (deps : list (option Why)) : bool :=
  forallb (fun dep => match dep with
                      | Some w => located packages w
                      | None => false
                      end) deps.

(** * Properties *)

(** ** Strings *)

Lemma append_cons (c : ascii) (a b : string) : String c a +:+ b = String c (a +:+ b).
Proof. reflexivity. Qed.

Lemma append_empty_l (a : string) : "" +:+ a = a.
Proof. reflexivity. Qed.

Lemma append_empty_r (a : string) : a +:+ "" = a.
Proof. induction a as [|c a IH]; [reflexivity|]. rewrite append_cons, IH. reflexivity. Qed.

Lemma append_assoc (a b c : string) : (a +:+ b) +:+ c = a +:+ b +:+ c.
Proof.
  induction a as [|x a IH]; [reflexivity|].
  rewrite !append_cons, IH. reflexivity.
Qed.

Lemma length_append (a b : string) :
  String.length (a +:+ b) = (String.length a + String.length b)%nat.
Proof.
  induction a as [|x a IH]; [reflexivity|].
  rewrite append_cons. simpl. rewrite IH. reflexivity.
Qed.

Lemma string_of_list_ascii_snoc (l : list ascii) (c : ascii) (s : string) :
  string_of_list_ascii (l ++ [c]) +:+ s = string_of_list_ascii l +:+ String c s.
Proof.
  induction l as [|x l IH]; [reflexivity|].
  simpl. rewrite !append_cons, IH. reflexivity.
Qed.

Lemma take_append (a b : string) : JsString.take (String.length a) (a +:+ b) = a.
Proof.
  induction a as [|x a IH]; [by destruct b|].
  rewrite append_cons. simpl. rewrite IH. reflexivity.
Qed.

Lemma take_all (a : string) : JsString.take (String.length a) a = a.
Proof. rewrite <- (append_empty_r a) at 2. apply take_append. Qed.

Lemma drop_append (a b : string) : JsString.drop (String.length a) (a +:+ b) = b.
Proof.
  induction a as [|x a IH]; [by destruct b|].
  rewrite append_cons. simpl. exact IH.
Qed.

(** *** [find] and [indexOf] *)

Lemma find_append (c : ascii) (a b : string) :
  JsString.find c a = None ->
  JsString.find c (a +:+ String c b) = Some (String.length a).
Proof.
  induction a as [|x a IH]; intros Hnone.
  - rewrite append_empty_l. simpl. rewrite Ascii.eqb_refl. reflexivity.
  - rewrite append_cons. simpl in *. destruct (Ascii.eqb x c); [discriminate|].
    destruct (JsString.find c a); [discriminate|].
    rewrite IH by reflexivity. reflexivity.
Qed.

Lemma find_none (c : ascii) (s : string) :
  JsString.find c s = None <-> forall i, String.get i s <> Some c.
Proof.
  induction s as [|x s IH]; simpl.
  - split; [intros _ i; by destruct i|done].
  - destruct (Ascii.eqb_spec x c) as [->|Hne].
    + split; [discriminate|]. intros H. destruct (H O). reflexivity.
    + destruct (JsString.find c s) as [k|]; simpl.
      * split; [discriminate|]. intros H.
        assert (Hs : forall i, String.get i s <> Some c) by (intros i; apply (H (S i))).
        apply IH in Hs. discriminate.
      * split; [|done]. intros _ [|i]; [congruence|]. by apply IH.
Qed.

Lemma get_drop (n i : nat) (s : string) :
  String.get i (JsString.drop n s) = String.get (n + i) s.
Proof.
  revert s; induction n as [|n IH]; intros s; [by destruct s|].
  destruct s as [|x s]; [by destruct i|]. simpl. apply IH.
Qed.

(** [indexOf] answers -1 exactly when the character does not occur at or
    after the start index. *)
Lemma indexOf_none (s : string) (c : ascii) (from : nat) :
  JsString.indexOf s c from = -1 <->
  forall i, (from <= i)%nat -> String.get i s <> Some c.
Proof.
  unfold JsString.indexOf.
  destruct (JsString.find c (JsString.drop from s)) as [k|] eqn:Hfind.
  - split; [lia|]. intros H. exfalso.
    assert (Hnone : JsString.find c (JsString.drop from s) = None).
    { apply find_none. intros i. rewrite get_drop. apply H. lia. }
    congruence.
  - split; [|done]. intros _ i Hle.
    replace i with (from + (i - from))%nat by lia.
    rewrite <- get_drop. revert Hfind. rewrite find_none. auto.
Qed.

Lemma indexOf_nonneg (s : string) (c : ascii) (from : nat) :
  JsString.indexOf s c from = -1 \/ Z.of_nat from <= JsString.indexOf s c from.
Proof.
  unfold JsString.indexOf. destruct (JsString.find c _); [right; lia|by left].
Qed.

(** The first [c] after a non-empty prefix that has none past its first
    character. *)
Lemma indexOf_append (a b : string) (c : ascii) :
  a <> "" ->
  JsString.indexOf a c 1 = -1 ->
  JsString.indexOf (a +:+ String c b) c 1 = Z.of_nat (String.length a).
Proof.
  destruct a as [|x a]; [done|]. intros _.
  unfold JsString.indexOf. rewrite append_cons. simpl.
  destruct (JsString.find c a) as [k|] eqn:Hfind; [lia|]. intros _.
  rewrite find_append by done. reflexivity.
Qed.

(** *** [slice] *)

Lemma slice_prefix (a b : string) :
  JsString.slice (a +:+ b) 0 (Some (Z.of_nat (String.length a))) = a.
Proof.
  unfold JsString.slice, JsString.clamp. rewrite length_append.
  replace (0 <? 0) with false by reflexivity.
  replace (Z.of_nat (String.length a) <? 0) with false by (symmetry; apply Z.ltb_ge; lia).
  rewrite Z.min_l by lia. rewrite Z.min_l by lia.
  rewrite Z.sub_0_r, Nat2Z.id. simpl. apply take_append.
Qed.

Lemma slice_suffix (a b : string) (c : ascii) :
  JsString.slice (a +:+ String c b) (Z.of_nat (String.length a) + 1) None = b.
Proof.
  unfold JsString.slice, JsString.clamp. rewrite length_append. simpl String.length.
  replace (Z.of_nat (String.length a) + 1 <? 0) with false by (symmetry; apply Z.ltb_ge; lia).
  rewrite Z.min_l by lia.
  replace (Z.to_nat (Z.of_nat (String.length a) + 1)) with (String.length (a +:+ String c ""))
    by (rewrite length_append; simpl; lia).
  replace (a +:+ String c b) with ((a +:+ String c "") +:+ b)
    by (rewrite append_assoc; reflexivity).
  rewrite drop_append.
  replace (Z.to_nat _) with (String.length b) by lia.
  apply take_all.
Qed.

(** *** [split] and [join] *)

Lemma split_go_nonempty (c : ascii) (s : string) (cur : list ascii) :
  JsString.split_go c s cur <> [].
Proof.
  revert cur; induction s as [|x s IH]; intros cur; simpl; [done|].
  destruct (Ascii.eqb x c); [done|apply IH].
Qed.

Lemma join_cons (sep p : string) (rest : list string) :
  rest <> [] -> JsString.join sep (p :: rest) = p +:+ sep +:+ JsString.join sep rest.
Proof. by destruct rest. Qed.

Lemma join_split_go (c : ascii) (s : string) (cur : list ascii) :
  JsString.join (String c "") (JsString.split_go c s cur)
  = string_of_list_ascii (rev cur) +:+ s.
Proof.
  revert cur; induction s as [|x s IH]; intros cur; simpl.
  - by rewrite append_empty_r.
  - destruct (Ascii.eqb_spec x c) as [->|Hne].
    + rewrite join_cons by apply split_go_nonempty.
      rewrite IH. reflexivity.
    + rewrite IH. simpl. apply string_of_list_ascii_snoc.
Qed.

(** Joining the parts of a split gives the string back. *)
Lemma join_split (c : ascii) (s : string) :
  JsString.join (String c "") (JsString.split s c) = s.
Proof. unfold JsString.split. rewrite join_split_go. reflexivity. Qed.

Lemma split_go_append (c : ascii) (a b : string) (cur : list ascii) :
  JsString.split_go c (a +:+ String c b) cur
  = JsString.split_go c a cur ++ JsString.split_go c b [].
Proof.
  revert cur; induction a as [|x a IH]; intros cur.
  - rewrite append_empty_l. simpl. rewrite Ascii.eqb_refl. reflexivity.
  - rewrite append_cons. simpl. destruct (Ascii.eqb x c); [|apply IH].
    rewrite IH. reflexivity.
Qed.

(** Splitting distributes over a join with the separator. *)
Lemma split_join (c : ascii) (parts : list string) :
  parts <> [] ->
  JsString.split (JsString.join (String c "") parts) c
  = flat_map (fun p => JsString.split p c) parts.
Proof.
  induction parts as [|p rest IH]; [done|]. intros _.
  destruct rest as [|q rest].
  - simpl. by rewrite app_nil_r.
  - rewrite join_cons by done. unfold JsString.split in *.
    replace (p +:+ String c "" +:+ JsString.join (String c "") (q :: rest))
      with (p +:+ String c (JsString.join (String c "") (q :: rest))) by reflexivity.
    rewrite split_go_append. rewrite IH by done. reflexivity.
Qed.

(** *** Examples *)

Example indexOf_scoped : JsString.indexOf "@s/n@1.0" "@" 1 = 4.
Proof. reflexivity. Qed.

Example indexOf_scope_only : JsString.indexOf "@s" "@" 1 = -1.
Proof. reflexivity. Qed.

Example slice_neg : JsString.slice "barx" 0 (Some (-1)) = "bar".
Proof. reflexivity. Qed.

Example split_empty : JsString.split "" "/" = [""].
Proof. reflexivity. Qed.

Example split_path : JsString.split "a/@s/b" "/" = ["a"; "@s"; "b"].
Proof. reflexivity. Qed.

Example replaceAll_overlap :
  JsString.replaceAll "/node_modules/" "/" "a/node_modules/node_modules/b" = "a/node_modules/b".
Proof. reflexivity. Qed.

(** ** The instances of the collaborators *)

Example satisfies_caret : Npm.satisfies "1.2.0" "^1.0.0" = true.
Proof. reflexivity. Qed.

Example satisfies_caret_major : Npm.satisfies "2.0.0" "^1.0.0" = false.
Proof. reflexivity. Qed.

Example satisfies_unreadable : Npm.satisfies "1.0.0" "scope/bar@" = false.
Proof. reflexivity. Qed.

Example valid_names :
  map Npm.validForOldPackages ["bar"; "@s/n"; "constructor"; "toString"; "bar@*"; "__proto__"; "a/b"; ""]
  = [true; true; true; true; false; false; false; false].
Proof. reflexivity. Qed.

(** *** Valid names of the instance *)

Lemma find_tail (c : ascii) (s : string) (n : nat) :
  JsString.find c s = None -> JsString.find c (JsString.drop n s) = None.
Proof.
  revert s; induction n as [|n IH]; intros s; [by destruct s|].
  destruct s as [|x s]; [done|]. simpl.
  destruct (Ascii.eqb x c); [discriminate|].
  destruct (JsString.find c s) eqn:Hfind; [discriminate|]. intros _. by apply IH.
Qed.

Lemma find_append_none (c : ascii) (a b : string) :
  JsString.find c a = None -> JsString.find c b = None ->
  JsString.find c (a +:+ b) = None.
Proof.
  intros Ha Hb. induction a as [|x a IH]; [done|].
  rewrite append_cons. simpl in *. destruct (Ascii.eqb x c); [discriminate|].
  destruct (JsString.find c a); [discriminate|]. by rewrite IH.
Qed.

Lemma urlSafe_no_at (s : string) :
  Npm.all Npm.urlSafe s = true -> JsString.find "@" s = None.
Proof.
  induction s as [|x s IH]; simpl; [done|].
  intros [Hx Hs]%andb_true_iff.
  destruct (Ascii.eqb_spec x "@") as [->|_]; [discriminate|].
  by rewrite IH.
Qed.

(** A valid name is not empty and has no [@] after its first character. *)
Lemma valid_name_no_at (n : string) :
  Npm.validForOldPackages n = true ->
  n <> "" /\ JsString.indexOf n "@" 1 = -1.
Proof.
  unfold Npm.validForOldPackages. rewrite !andb_true_iff, orb_true_iff.
  intros ((((((Hne & _) & _) & _) & _) & _) & Hchars).
  split; [by destruct n|].
  unfold JsString.indexOf.
  assert (Htail : JsString.find "@" (JsString.drop 1 n) = None); [|by rewrite Htail].
  destruct Hchars as [Hsafe|Hscoped].
  - by apply find_tail, urlSafe_no_at.
  - unfold Npm.scoped in Hscoped.
    destruct n as [|c r]; [discriminate|]. simpl.
    destruct (Ascii.eqb_spec c "@") as [->|Hc].
    + pose proof (join_split "/" r) as Hjoin.
      destruct (JsString.split r "/") as [|user [|pkg [|x parts]]]; try discriminate.
      apply andb_true_iff in Hscoped as [[_ Huser]%andb_true_iff Hpkg].
      simpl in Hjoin. subst r.
      apply find_append_none; [by apply urlSafe_no_at|].
      apply (find_append_none "@" "/"); [reflexivity|by apply urlSafe_no_at].
    + destruct c as [[] [] [] [] [] [] [] []]; try discriminate. by destruct Hc.
Qed.

(** A valid name followed by [@*] is not a valid name. *)
Lemma valid_name_star (n : string) :
  Npm.validForOldPackages n = true -> Npm.validForOldPackages (n +:+ "@*") = false.
Proof.
  intros Hn. destruct (valid_name_no_at n Hn) as [Hne Hat].
  destruct (Npm.validForOldPackages (n +:+ "@*")) eqn:Hstar; [|reflexivity].
  destruct (valid_name_no_at _ Hstar) as [_ Hat'].
  change (n +:+ "@*") with (n +:+ String "@" "*") in Hat'.
  rewrite indexOf_append in Hat' by done. lia.
Qed.

(** ** [iterateLocations] *)

Lemma atomicParts_segment (segment : string) (rest : list string) :
  atomicSegment segment = true ->
  atomicParts (JsString.split segment "/" ++ rest) = segment :: atomicParts rest.
Proof.
  unfold atomicSegment. intros Hatomic.
  pose proof (join_split "/" segment) as Hjoin.
  destruct (JsString.split segment "/") as [|p [|q [|r parts]]]; try discriminate.
  - simpl in Hjoin. subst p. simpl.
    apply negb_true_iff in Hatomic. rewrite Hatomic. reflexivity.
  - simpl in Hjoin. subst segment. simpl. rewrite Hatomic. reflexivity.
Qed.

(** The first loop of [iterateLocations] recovers the atomic segments of a
    location. *)
Lemma atomicParts_join (segments : list string) :
  segments <> [] ->
  Forall (fun s => atomicSegment s = true) segments ->
  atomicParts (JsString.split (JsString.join "/" segments) "/") = segments.
Proof.
  intros Hne Hall. rewrite split_join by done. clear Hne.
  induction Hall as [|s segments Hs _ IH]; [reflexivity|].
  simpl. rewrite atomicParts_segment by done. by rewrite IH.
Qed.

Lemma prefixes_firstn {A : Type} (l : list A) :
  prefixes l = map (fun k => firstn (S k) l) (seq 0 (length l)).
Proof.
  induction l as [|x l IH]; [reflexivity|].
  simpl. f_equal. rewrite IH, <- seq_shift, !map_map. reflexivity.
Qed.

Lemma yieldPrefixes_seq (parts : list string) (name : string) (i : nat) :
  yieldPrefixes parts name i
  = map (fun prefix => JsString.join "/" prefix +:+ "/" +:+ name)
      (rev (map (fun k => firstn (S k) parts) (seq 0 i))).
Proof.
  induction i as [|i IH]; [reflexivity|].
  rewrite seq_S, map_app, rev_app_distr. simpl. rewrite <- IH. reflexivity.
Qed.

(** The generator yields the candidates of its own decomposition of [dir],
    whatever [dir] is. *)
Lemma iterateLocations_parts (dir name : string) :
  iterateLocations dir name = resolve_candidates (atomicParts (JsString.split dir "/")) name.
Proof.
  unfold iterateLocations, resolve_candidates.
  rewrite yieldPrefixes_seq, prefixes_firstn. reflexivity.
Qed.

Lemma yieldPrefixes_length (parts : list string) (name : string) (i : nat) :
  length (yieldPrefixes parts name i) = i.
Proof. induction i as [|i IH]; simpl; [reflexivity|by rewrite IH]. Qed.

Lemma atomicParts_length (raw : list string) :
  (length (atomicParts raw) <= length raw)%nat.
Proof.
  assert (Hboth : (length (atomicParts raw) <= length raw)%nat
                  /\ forall part, (length (atomicParts (part :: raw)) <= S (length raw))%nat).
  { induction raw as [|next raw [IH1 IH2]]; simpl.
    - split; [lia|]. intros part. destruct (JsString.firstIs part "@"); simpl; lia.
    - split; [apply IH2|]. intros part.
      destruct (JsString.firstIs part "@"); simpl; [lia|].
      specialize (IH2 next). simpl in IH2. lia. }
  apply Hboth.
Qed.

(** The candidates are at most one more than the parts of the path. *)
Lemma iterateLocations_length (dir name : string) :
  (length (iterateLocations dir name) <= S (length (JsString.split dir "/")))%nat.
Proof.
  unfold iterateLocations. rewrite length_app, yieldPrefixes_length. simpl.
  pose proof (atomicParts_length (JsString.split dir "/")). lia.
Qed.

(** A scope that nothing follows takes the [undefined] past the end of the
    path with it. *)
Example iterateLocations_lone_scope :
  iterateLocations "a/@s" "d" = ["a/@s/undefined/d"; "a/d"; "d"].
Proof. reflexivity. Qed.

(** C5.  For a requiring location made of the atomic segments [segments] (each
    a plain name or a [@scope/name] pair, joined by [/]) and a dependency
    [name], [iterateLocations] yields exactly, in order: for each prefix of
    the segments from the deepest to the shallowest, the prefix joined by [/]
    followed by [/] and [name], and finally the bare [name].  A scoped pair is
    one segment: from [a/b/c] the candidates for [d] are [a/b/c/d], [a/b/d],
    [a/d], [d], and from [a/@s/b] they are [a/@s/b/d], [a/d], [d]. *)
Theorem iterateLocations_nearest_first (segments : list string) (name : string) :
  segments <> [] ->
  Forall (fun s => atomicSegment s = true) segments ->
  iterateLocations (JsString.join "/" segments) name = resolve_candidates segments name
  /\ iterateLocations "a/b/c" "d" = ["a/b/c/d"; "a/b/d"; "a/d"; "d"]
  /\ iterateLocations "a/@s/b" "d" = ["a/@s/b/d"; "a/d"; "d"].
Proof.
  intros Hne Hall. split; [|split; reflexivity].
  rewrite iterateLocations_parts, atomicParts_join by done. reflexivity.
Qed.

Lemma iterateLocations_nearest_first_witness :
  iterateLocations (JsString.join "/" ["x"; "@types/node"; "y"]) "dep"
  = ["x/@types/node/y/dep"; "x/@types/node/dep"; "x/dep"; "dep"].
Proof.
  refine (proj1 (iterateLocations_nearest_first ["x"; "@types/node"; "y"] "dep" _ _)).
  - discriminate.
  - repeat constructor.
Defined.

(** ** Objects and loops *)

Lemma getOwn_keys {A : Type} (o : list (string * A)) (k : string) :
  k ∈ keys o <-> exists v, getOwn o k = Some v.
Proof.
  unfold keys. induction o as [|[k' v'] o IH]; simpl.
  - split; [intros H; inversion H|intros [v H]; discriminate].
  - destruct (String.eqb_spec k' k) as [->|Hne].
    + split; [eauto|intros _; apply list_elem_of_here].
    + rewrite elem_of_cons, IH. split; [intros [Heq|H]; [congruence|done]|auto].
Qed.

Lemma get_own {A : Type} (o : list (string * A)) (k : string) (v : A) :
  get o k = Own v <-> getOwn o k = Some v.
Proof.
  unfold get. destruct (getOwn o k); [split; congruence|].
  case_bool_decide; split; discriminate.
Qed.

(** A property that every turn of a loop keeps holds when the loop ends. *)
Lemma foldM_invariant {A S : Type} (P : S -> Prop) (body : S -> A -> completion S)
  (l : list A) (acc r : S) :
  (forall acc x acc', x ∈ l -> P acc -> body acc x = Ok acc' -> P acc') ->
  P acc -> foldM body l acc = Ok r -> P r.
Proof.
  revert acc; induction l as [|x l IH]; intros acc Hstep Hacc Hfold; simpl in Hfold.
  - congruence.
  - destruct (body acc x) as [acc'|e] eqn:Hbody; [|discriminate].
    simpl in Hfold. apply (IH acc'); [| |done].
    + intros a y a' Hy. apply Hstep. by apply list_elem_of_further.
    + eapply Hstep; [apply list_elem_of_here|done..].
Qed.

Lemma mapOutcome_returns {A B : Type} (f : A -> option (completion B)) (l : list A) :
  (forall x, x ∈ l -> exists y, f x = Some (Ok y)) ->
  exists ys, mapOutcome f l = Some (Ok ys).
Proof.
  induction l as [|x l IH]; intros Hall; simpl; [eauto|].
  destruct (Hall x) as [y ->]; [apply list_elem_of_here|].
  destruct IH as [ys ->]; [|eauto].
  intros z Hz. apply Hall. by apply list_elem_of_further.
Qed.

Lemma mapOutcome_pending {A B : Type} (f : A -> option (completion B)) (l : list A) (x : A) :
  (forall z e, z ∈ l -> f z <> Some (Throw e)) ->
  x ∈ l -> f x = None -> mapOutcome f l = None.
Proof.
  induction l as [|z l IH]; intros Hsafe Hx Hnone; [inversion Hx|].
  simpl. destruct (f z) as [[y|e]|] eqn:Hz; [| |done].
  - apply elem_of_cons in Hx as [->|Hx]; [congruence|].
    rewrite IH; [done| |done..].
    intros w e Hw. apply Hsafe. by apply list_elem_of_further.
  - destruct (Hsafe z e); [apply list_elem_of_here|done].
Qed.

(** ** The dependent index *)

Section Index.

Variable satisfies : string -> string -> bool.

Lemma firstMatch_found (packages : Packages) (range : string) (candidates : list string)
  (maybeLoc : string) :
  firstMatch satisfies packages range candidates = Ok (Some maybeLoc) ->
  maybeLoc ∈ candidates
  /\ exists info, getOwn packages maybeLoc = Some info
                  /\ 0 < JsString.indexOf (name_version info) "@" 1
                  /\ satisfies (JsString.slice (name_version info)
                                  (JsString.indexOf (name_version info) "@" 1 + 1) None)
                       range = true.
Proof.
  induction candidates as [|c candidates IH]; simpl; [discriminate|].
  intros Hfound.
  assert (Hrest : firstMatch satisfies packages range candidates = Ok (Some maybeLoc) ->
                  maybeLoc ∈ c :: candidates /\ exists info, getOwn packages maybeLoc = Some info
                  /\ 0 < JsString.indexOf (name_version info) "@" 1
                  /\ satisfies (JsString.slice (name_version info)
                                  (JsString.indexOf (name_version info) "@" 1 + 1) None)
                       range = true).
  { intros H. destruct (IH H) as [Hin Hinfo]. split; [by apply list_elem_of_further|done]. }
  destruct (get packages c) as [info| |] eqn:Hget; [|discriminate|auto].
  apply get_own in Hget.
  destruct (0 <? JsString.indexOf (name_version info) "@" 1) eqn:Hi; [|auto].
  destruct (satisfies _ range) eqn:Hsat; [|auto].
  injection Hfound as <-. split; [apply list_elem_of_here|].
  exists info. split; [done|]. split; [by apply Z.ltb_lt|done].
Qed.

Lemma pushDependent_indexed (packages : Packages) (dependents : gmap string (list string))
  (maybeLoc location : string) (info : PackageInfo) :
  indexed packages dependents ->
  getOwn packages maybeLoc = Some info ->
  0 < JsString.indexOf (name_version info) "@" 1 ->
  location ∈ keys packages ->
  indexed packages (pushDependent dependents maybeLoc location).
Proof.
  intros Hinv Hown Hid Hloc x locs. unfold pushDependent.
  destruct (decide (maybeLoc = x)) as [->|Hne].
  - rewrite lookup_insert_eq. intros [= <-]. split; [eauto|].
    intros y [Hy|Hy]%elem_of_app.
    + destruct (dependents !! x) as [old|] eqn:Hold; [|inversion Hy].
      by apply (Hinv x old).
    + apply list_elem_of_singleton in Hy as ->. done.
  - rewrite lookup_insert_ne by done. apply Hinv.
Qed.

Lemma scanDeps_indexed (packages : Packages) (location : string)
  (deps : option (list (string * string))) (dependents dependents' : gmap string (list string)) :
  location ∈ keys packages ->
  indexed packages dependents ->
  scanDeps satisfies packages location deps dependents = Ok dependents' ->
  indexed packages dependents'.
Proof.
  intros Hloc Hinv. destruct deps as [l|]; simpl; [|by intros [= <-]].
  apply foldM_invariant; [|done].
  intros acc dep acc' _ Hacc. unfold scanDep.
  destruct (firstMatch satisfies packages dep.2 _) as [[maybeLoc|]|e] eqn:Hfirst;
    simpl; [| by intros [= <-] | discriminate].
  intros [= <-]. apply firstMatch_found in Hfirst as (_ & info & Hown & Hid & _).
  by eapply pushDependent_indexed.
Qed.

(** The index that [readLockfile] returns is over the locations of the
    lockfile. *)
Lemma readLockfile_indexed (lockfile : BunLockfile)
  (read : Packages * gmap string (list string)) :
  readLockfile satisfies lockfile = Ok read ->
  read.1 = packages lockfile /\ indexed read.1 read.2.
Proof.
  unfold readLockfile.
  destruct (foldM _ _ _) as [d|e] eqn:Hfold; simpl; [|discriminate].
  intros [= <-]. split; [done|]. simpl.
  revert Hfold. apply foldM_invariant.
  - intros acc [location info] acc' Hentry Hacc. unfold scanLocation. simpl.
    assert (Hloc : location ∈ keys (packages lockfile)).
    { unfold keys. apply list_elem_of_fmap. by exists (location, info). }
    destruct (scanDeps satisfies _ location (dependencies _) acc) as [mid|e] eqn:Hmid;
      simpl; [|discriminate].
    intros Hscan. eapply scanDeps_indexed; [done| |exact Hscan].
    eapply scanDeps_indexed; [done|exact Hacc|exact Hmid].
  - intros x locs. rewrite lookup_empty. discriminate.
Qed.

End Index.

(** ** The edges of the dependent index *)

Lemma foldM_returns {A S : Type} (body : S -> A -> completion S) (l : list A) (acc : S) :
  (forall acc x, x ∈ l -> exists acc', body acc x = Ok acc') ->
  exists r, foldM body l acc = Ok r.
Proof.
  revert acc; induction l as [|x l IH]; intros acc Hbody; simpl; [eauto|].
  destruct (Hbody acc x) as [acc' ->]; [apply list_elem_of_here|]. simpl.
  apply IH. intros a y Hy. apply Hbody. by apply list_elem_of_further.
Qed.

Lemma find_append_some (c : ascii) (a b : string) :
  JsString.find c (a +:+ String c b) <> None.
Proof.
  induction a as [|x a IH]; [simpl; by rewrite Ascii.eqb_refl|].
  rewrite append_cons. simpl. destruct (Ascii.eqb x c); [done|].
  by destruct (JsString.find c (a +:+ String c b)).
Qed.

(** No name of [Object.prototype] has a [/]. *)
Lemma ObjectPrototype_no_slash (k : string) :
  k ∈ ObjectPrototype -> JsString.find "/" k = None.
Proof.
  unfold ObjectPrototype. intros Hin.
  repeat (apply elem_of_cons in Hin as [->|Hin]; [reflexivity|]).
  inversion Hin.
Qed.

Lemma yieldPrefixes_slash (parts : list string) (name c : string) (i : nat) :
  c ∈ yieldPrefixes parts name i -> exists prefix, c = prefix +:+ String "/" name.
Proof.
  induction i as [|i IH]; simpl; [intros H; inversion H|].
  intros [->|Hin]%elem_of_cons; [eauto|by apply IH].
Qed.

(** Only the bare name, the last candidate, can be an inherited property. *)
Lemma iterateLocations_inherited (packages : Packages) (dir name c : string) :
  c ∈ iterateLocations dir name -> get packages c = Inherited -> c = name.
Proof.
  unfold iterateLocations. intros [Hin|Hin]%elem_of_app Hget.
  - exfalso. apply yieldPrefixes_slash in Hin as [prefix ->].
    unfold get in Hget. destruct (getOwn packages _); [discriminate|].
    case_bool_decide as Hproto; [|discriminate].
    apply ObjectPrototype_no_slash in Hproto. by apply find_append_some in Hproto.
  - by apply list_elem_of_singleton in Hin.
Qed.

Section Edges.

Variable satisfies : string -> string -> bool.

(** The candidate at which the loop of [scanDeps] breaks is the first
    eligible one. *)
Lemma firstMatch_first (packages : Packages) (range : string) (candidates : list string)
  (maybeLoc : string) :
  firstMatch satisfies packages range candidates = Ok (Some maybeLoc) ->
  exists before after,
    candidates = before ++ maybeLoc :: after
    /\ eligible satisfies packages range maybeLoc
    /\ forall c, c ∈ before -> ~ eligible satisfies packages range c.
Proof.
  induction candidates as [|c candidates IH]; simpl; [discriminate|].
  intros Hfound.
  assert (Hnext : ~ eligible satisfies packages range c ->
                  firstMatch satisfies packages range candidates = Ok (Some maybeLoc) ->
                  exists before after,
                    c :: candidates = before ++ maybeLoc :: after
                    /\ eligible satisfies packages range maybeLoc
                    /\ forall c, c ∈ before -> ~ eligible satisfies packages range c).
  { intros Hc Hrest. destruct (IH Hrest) as (before & after & -> & Helig & Hbefore).
    exists (c :: before), after. split; [reflexivity|]. split; [done|].
    intros b [->|Hb]%elem_of_cons; [done|by apply Hbefore]. }
  destruct (get packages c) as [info| |] eqn:Hget; [|discriminate|].
  - apply get_own in Hget.
    destruct (0 <? JsString.indexOf (name_version info) "@" 1) eqn:Hi.
    + destruct (satisfies _ range) eqn:Hsat.
      * injection Hfound as <-. exists [], candidates. split; [reflexivity|].
        split; [|intros b Hb; inversion Hb].
        exists info. split; [done|]. split; [by apply Z.ltb_lt|done].
      * apply Hnext; [|done]. intros (info' & Hown & _ & Hsat'). congruence.
    + apply Hnext; [|done]. intros (info' & Hown & Hi' & _).
      apply Z.ltb_ge in Hi. assert (info' = info) as -> by congruence. lia.
  - apply Hnext; [|done]. intros (info' & Hown & _).
    apply get_own in Hown. congruence.
Qed.

(** Without an eligible candidate the loop ends without an edge. *)
Lemma firstMatch_none (packages : Packages) (range : string) (candidates : list string) :
  firstMatch satisfies packages range candidates = Ok None ->
  forall c, c ∈ candidates -> ~ eligible satisfies packages range c.
Proof.
  induction candidates as [|c candidates IH]; simpl; intros Hnone b Hb; [inversion Hb|].
  intros (info' & Hown & Hi' & Hsat').
  apply elem_of_cons in Hb as [->|Hb].
  - apply get_own in Hown. rewrite Hown in Hnone.
    replace (0 <? _) with true in Hnone by (symmetry; by apply Z.ltb_lt).
    rewrite Hsat' in Hnone. discriminate.
  - destruct (get packages c) as [info| |]; [|discriminate|].
    + destruct (0 <? _); [destruct (satisfies _ range); [discriminate|]|];
        apply (IH Hnone b Hb); by exists info'.
    + apply (IH Hnone b Hb). by exists info'.
Qed.

Lemma firstMatch_returns (packages : Packages) (range : string) (candidates : list string) :
  (forall c, c ∈ candidates -> get packages c <> Inherited) ->
  exists found, firstMatch satisfies packages range candidates = Ok found.
Proof.
  induction candidates as [|c candidates IH]; simpl; intros Hsafe; [eauto|].
  assert (Hrest : exists found, firstMatch satisfies packages range candidates = Ok found).
  { apply IH. intros b Hb. apply Hsafe. by apply list_elem_of_further. }
  destruct (get packages c) as [info| |] eqn:Hget; [| |done].
  - destruct (0 <? _); [destruct (satisfies _ range)|]; eauto.
  - destruct (Hsafe c); [apply list_elem_of_here|done].
Qed.

Lemma pushDependent_lookup (dependents : gmap string (list string))
  (maybeLoc location target : string) :
  default [] (pushDependent dependents maybeLoc location !! target)
  = default [] (dependents !! target)
    ++ (if String.eqb maybeLoc target then [location] else []).
Proof.
  unfold pushDependent. destruct (String.eqb_spec maybeLoc target) as [->|Hne].
  - by rewrite lookup_insert_eq.
  - rewrite lookup_insert_ne by done. by rewrite app_nil_r.
Qed.

Lemma scanDep_edge (packages : Packages) (location : string) (dep : string * string)
  (dependents dependents' : gmap string (list string)) :
  scanDep satisfies packages location dependents dep = Ok dependents' ->
  forall target,
    default [] (dependents' !! target)
    = default [] (dependents !! target)
      ++ edgesOf satisfies packages location [dep] target.
Proof.
  unfold scanDep, edgesOf. simpl.
  destruct (firstMatch satisfies packages dep.2 _) as [[maybeLoc|]|e]; simpl;
    [| |discriminate]; intros [= <-] target.
  - rewrite pushDependent_lookup. by rewrite app_nil_r.
  - by rewrite app_nil_r.
Qed.

Lemma scanDeps_edges (packages : Packages) (location : string)
  (deps : option (list (string * string))) (dependents dependents' : gmap string (list string)) :
  scanDeps satisfies packages location deps dependents = Ok dependents' ->
  forall target,
    default [] (dependents' !! target)
    = default [] (dependents !! target)
      ++ edgesOf satisfies packages location (default [] deps) target.
Proof.
  destruct deps as [l|]; simpl.
  - revert dependents. induction l as [|dep l IH]; intros dependents.
    + intros [= <-] target. by rewrite app_nil_r.
    + cbn [foldM].
      destruct (scanDep satisfies packages location dependents dep) as [mid|e] eqn:Hdep;
        simpl; [|discriminate].
      intros Hrest target.
      rewrite (IH _ Hrest), (scanDep_edge _ _ _ _ _ Hdep).
      unfold edgesOf. simpl. rewrite app_nil_r. by rewrite <- app_assoc.
  - intros [= <-] target. by rewrite app_nil_r.
Qed.

Lemma scanLocation_edges (packages : Packages) (entry : string * PackageInfo)
  (dependents dependents' : gmap string (list string)) :
  scanLocation satisfies packages dependents entry = Ok dependents' ->
  forall target,
    default [] (dependents' !! target)
    = default [] (dependents !! target)
      ++ edgesOf satisfies packages entry.1 (declarations entry.2) target.
Proof.
  unfold scanLocation.
  destruct (scanDeps satisfies packages entry.1 (dependencies (package entry.2)) dependents)
    as [mid|e] eqn:Hmid; simpl; [|discriminate].
  intros Hopt target.
  rewrite (scanDeps_edges _ _ _ _ _ Hopt), (scanDeps_edges _ _ _ _ _ Hmid).
  unfold declarations, edgesOf. by rewrite flat_map_app, <- !app_assoc.
Qed.

(** Every dependents list of the index holds, in the order of the lockfile
    and then of the declarations ([dependencies] before
    [optionalDependencies]), the requiring location once for every
    declaration whose first eligible candidate is the key of the list. *)
Lemma readLockfile_edges (lockfile : BunLockfile)
  (read : Packages * gmap string (list string)) :
  readLockfile satisfies lockfile = Ok read ->
  forall target,
    default [] (read.2 !! target)
    = flat_map (fun entry : string * PackageInfo =>
                  edgesOf satisfies (packages lockfile) entry.1 (declarations entry.2) target)
        (packages lockfile).
Proof.
  unfold readLockfile.
  destruct (foldM _ _ _) as [d|e] eqn:Hfold; simpl; [|discriminate].
  intros [= <-] target. simpl.
  assert (Hgen : forall (entries : Packages) (d0 d1 : gmap string (list string)),
             foldM (scanLocation satisfies (packages lockfile)) entries d0 = Ok d1 ->
             default [] (d1 !! target)
             = default [] (d0 !! target)
               ++ flat_map (fun entry : string * PackageInfo =>
                              edgesOf satisfies (packages lockfile) entry.1
                                (declarations entry.2) target) entries).
  { induction entries as [|entry entries IH]; intros d0 d1.
    - intros [= <-]. by rewrite app_nil_r.
    - cbn [foldM flat_map].
      destruct (scanLocation satisfies (packages lockfile) d0 entry) as [mid|e] eqn:Hmid;
        simpl; [|discriminate].
      intros Hrest.
      rewrite (IH _ _ Hrest), (scanLocation_edges _ _ _ _ Hmid).
      by rewrite <- app_assoc. }
  rewrite (Hgen _ _ _ Hfold). by rewrite lookup_empty.
Qed.

(** [readLockfile] returns when no declared dependency is named like a
    property of [Object.prototype]. *)
Lemma readLockfile_returns (lockfile : BunLockfile) :
  (forall entry dep,
     entry ∈ packages lockfile -> dep ∈ declarations entry.2 -> dep.1 ∉ ObjectPrototype) ->
  exists dependents, readLockfile satisfies lockfile = Ok (packages lockfile, dependents).
Proof.
  intros Hnames. unfold readLockfile.
  assert (Hscan : forall location deps d,
             (forall dep, dep ∈ default [] deps -> dep.1 ∉ ObjectPrototype) ->
             exists d', scanDeps satisfies (packages lockfile) location deps d = Ok d').
  { intros location [l|] d Hdeps; simpl; [|eauto].
    apply foldM_returns. intros acc dep Hdep. unfold scanDep.
    destruct (firstMatch_returns (packages lockfile) dep.2 (iterateLocations location dep.1))
      as [found ->].
    - intros c Hc Hget. pose proof (iterateLocations_inherited _ _ _ _ Hc Hget) as ->.
      unfold get in Hget. destruct (getOwn _ _); [discriminate|].
      case_bool_decide as Hproto; [|discriminate]. by apply (Hdeps dep).
    - simpl. destruct found; eauto. }
  destruct (foldM_returns (scanLocation satisfies (packages lockfile)) (packages lockfile) ∅)
    as [d ->]; [|simpl; eauto].
  intros acc [location info] Hentry. unfold scanLocation. simpl.
  destruct (Hscan location (dependencies (package info)) acc) as [mid ->].
  { intros dep Hdep. apply (Hnames (location, info)); [done|].
    unfold declarations. apply elem_of_app. by left. }
  simpl. apply Hscan.
  intros dep Hdep. apply (Hnames (location, info)); [done|].
  unfold declarations. apply elem_of_app. by right.
Qed.

End Edges.

(** ** Names inherited from [Object.prototype] *)

(** C4, on the lockfile in which [foo] declares the optional dependency
    [constructor] and no package is installed for it: the candidates are
    [foo/constructor], which the lockfile does not have, and [constructor],
    which [lockfile.packages] inherits from [Object.prototype]; reading the
    id of that value throws, whatever the range check answers. *)
Theorem readLockfile_inherited_name (satisfies : string -> string -> bool) :
  iterateLocations "foo" "constructor" = ["foo/constructor"; "constructor"]
  /\ get (packages Scenario.inheritedName) "foo/constructor" = Undefined
  /\ get (packages Scenario.inheritedName) "constructor" = Inherited
  /\ readLockfile satisfies Scenario.inheritedName = Throw TypeError.
Proof. repeat split. Qed.

(** ** [makeWhy]: termination *)

Section Termination.

Variable packages : Packages.
Variable dependents : gmap string (list string).
Hypothesis index : indexed packages dependents.

Lemma edge_target (x y : string) : edge dependents x y -> y ∈ keys packages.
Proof. intros (locs & Hlocs & Hy). by apply (index x locs). Qed.

Lemma edge_source (x y : string) :
  edge dependents x y ->
  exists info, getOwn packages x = Some info
               /\ 0 < JsString.indexOf (name_version info) "@" 1.
Proof. intros (locs & Hlocs & _). by apply (index x locs). Qed.

Lemma cycle_step (x : string) :
  tc (edge dependents) x x -> exists y, edge dependents x y /\ tc (edge dependents) y y.
Proof.
  intros Hcycle. inversion Hcycle as [? ? Hedge|? y ? Hedge Hback]; subst.
  - eauto.
  - exists y. split; [done|]. eapply tc_r; eauto.
Qed.

(** On locations of the lockfile [makeWhy] does not throw. *)
Lemma makeWhy_no_throw (fuel : nat) (location : string) (e : exn) :
  location ∈ keys packages ->
  makeWhy fuel location packages dependents <> Some (Throw e).
Proof.
  revert location e; induction fuel as [|fuel IH]; intros location e Hloc; [done|].
  simpl. apply getOwn_keys in Hloc as [info ->].
  destruct (_ <=? 0); [done|].
  destruct (dependents !! location) as [locs|] eqn:Hlocs; [|done].
  destruct (mapOutcome _ locs) as [[ds|e']|] eqn:Hmap; [done| |done].
  exfalso. clear -IH index Hlocs Hmap.
  assert (Hkeys : forall y, y ∈ locs -> y ∈ keys packages) by apply (index location locs Hlocs).
  clear Hlocs. induction locs as [|y locs IHlocs]; simpl in Hmap; [discriminate|].
  destruct (makeWhy fuel y packages dependents) as [[w|e'']|] eqn:Hy; [| |discriminate].
  - destruct (mapOutcome _ locs) as [[ds|e'']|] eqn:Hrest; [discriminate| |discriminate].
    apply IHlocs; [done|]. intros z Hz. apply Hkeys. by apply list_elem_of_further.
  - apply (IH y e''); [|done]. apply Hkeys, list_elem_of_here.
Qed.

(** A location on a cycle: no fuel is enough. *)
Lemma makeWhy_cycle (fuel : nat) (x : string) :
  tc (edge dependents) x x -> makeWhy fuel x packages dependents = None.
Proof.
  revert x; induction fuel as [|fuel IH]; intros x Hcycle; [done|].
  destruct (cycle_step x Hcycle) as (y & Hedge & Hy).
  destruct (edge_source x y Hedge) as (info & Hown & Hid).
  destruct Hedge as (locs & Hlocs & Hin).
  simpl. rewrite Hown.
  replace (_ <=? 0) with false by (symmetry; apply Z.leb_gt; done).
  rewrite Hlocs.
  rewrite (mapOutcome_pending _ locs y); [done| |done|by apply IH].
  intros z e Hz. apply makeWhy_no_throw. by apply (index x locs).
Qed.

Hypothesis no_cycle : acyclic dependents.

Lemma distinct_locations_bounded (l : list string) :
  NoDup l -> (forall v, v ∈ l -> v ∈ keys packages) ->
  (length l <= length packages)%nat.
Proof.
  intros Hnodup Hin. unfold keys in Hin.
  rewrite <- (length_fmap fst packages).
  by apply submseteq_length, NoDup_submseteq.
Qed.

(** A dependent of [location] has not been visited on the way to it. *)
Lemma dependent_fresh (location y : string) (visited : list string) :
  NoDup (location :: visited) ->
  (forall v, v ∈ location :: visited -> v ∈ keys packages) ->
  (forall v, v ∈ visited -> tc (edge dependents) v location) ->
  edge dependents location y ->
  NoDup (y :: location :: visited)
  /\ (forall v, v ∈ y :: location :: visited -> v ∈ keys packages)
  /\ (forall v, v ∈ location :: visited -> tc (edge dependents) v y).
Proof.
  intros Hnodup Hkeys Hreach Hedge. split; [|split].
  - apply NoDup_cons. split; [|done].
    intros [->|Hy]%elem_of_cons.
    + apply (no_cycle location). by apply tc_once.
    + apply (no_cycle y). eapply tc_r; [by apply Hreach|done].
  - intros v [->|Hv]%elem_of_cons; [by eapply edge_target|by apply Hkeys].
  - intros v [->|Hv]%elem_of_cons; [by apply tc_once|].
    eapply tc_r; [by apply Hreach|done].
Qed.

(** With [visited] the locations on the way to [location], all different,
    the recursion below [location] is at most as deep as the number of
    locations that are left. *)
Lemma makeWhy_returns_within (fuel : nat) (location : string) (visited : list string) :
  NoDup (location :: visited) ->
  (forall v, v ∈ location :: visited -> v ∈ keys packages) ->
  (forall v, v ∈ visited -> tc (edge dependents) v location) ->
  (length packages <= fuel + length (location :: visited))%nat ->
  exists why, makeWhy (S fuel) location packages dependents = Some (Ok why).
Proof.
  revert location visited.
  induction fuel as [|fuel IH]; intros location visited Hnodup Hkeys Hreach Hfuel.
  all: cbn [makeWhy].
  all: destruct (proj1 (getOwn_keys packages location)) as [info ->];
         [apply Hkeys, list_elem_of_here|].
  all: destruct (_ <=? 0); [eauto|].
  all: destruct (dependents !! location) as [locs|] eqn:Hlocs; [|eauto].
  all: match goal with
       | |- context [mapOutcome ?f ?l] =>
           destruct (mapOutcome_returns f l) as [ds Hds]; [|rewrite Hds; eauto]
       end.
  all: intros y Hy.
  all: destruct (dependent_fresh location y visited) as (Hnd & Hk & Hr);
         [done|done|done|by exists locs|].
  all: pose proof (distinct_locations_bounded _ Hnd Hk) as Hbound.
  - exfalso. simpl in *. lia.
  - apply (IH y (location :: visited)); [done..|]. simpl in *. lia.
Qed.

Lemma makeWhy_returns (location : string) :
  location ∈ keys packages ->
  exists why, makeWhy (S (length packages)) location packages dependents = Some (Ok why).
Proof.
  intros Hloc. apply (makeWhy_returns_within _ location []).
  - apply NoDup_singleton.
  - by intros v ->%list_elem_of_singleton.
  - intros v Hv. inversion Hv.
  - simpl. lia.
Qed.

End Termination.



(** Two packages that depend on each other: the index has a cycle, and
    [makeWhy] does not return from either. *)
Example makeWhy_mutual (fuel : nat) :
  exists dependents,
    readLockfile Npm.satisfies Scenario.mutual = Ok (packages Scenario.mutual, dependents)
    /\ makeWhy fuel "a" (packages Scenario.mutual) dependents = None.
Proof.
  exists {["b" := ["a"]; "a" := ["b"]]}. split; [vm_compute; reflexivity|].
  apply (makeWhy_cycle (packages Scenario.mutual)).
  - apply (readLockfile_indexed Npm.satisfies Scenario.mutual (_, _)). vm_compute. reflexivity.
  - eapply tc_l; [|apply tc_once].
    + exists ["b"]. split; [reflexivity|apply list_elem_of_here].
    + exists ["a"]. split; [reflexivity|apply list_elem_of_here].
Qed.

(** ** Records without a version *)

(** A record whose id has no [@] at index 1 or later gives no node. *)
Lemma makeWhy_malformed (fuel : nat) (location : string) (packages : Packages)
  (dependents : gmap string (list string)) (info : PackageInfo) :
  getOwn packages location = Some info ->
  JsString.indexOf (name_version info) "@" 1 = -1 ->
  makeWhy (S fuel) location packages dependents = Some (Ok None).
Proof. intros Hown Hid. simpl. rewrite Hown, Hid. reflexivity. Qed.

(** C3, on the lockfile in which [baz], whose id has no [@], depends on [bar]:
    [makeWhy] gives no node for [baz], but the dependents list of the node of
    [bar] that [explain] returns holds that absent result, since only
    [explain] filters the results of [makeWhy]; [format] of the result then
    throws. *)
Theorem malformed_dependent_kept :
  readLockfile Npm.satisfies Scenario.malformedDependent
  = Ok (packages Scenario.malformedDependent, {["bar" := ["baz"]]})
  /\ makeWhy 1 "baz" (packages Scenario.malformedDependent) {["bar" := ["baz"]]}
     = Some (Ok None)
  /\ explain Npm.satisfies Npm.validForOldPackages 2 Scenario.malformedDependent ["bar"]
     = Some (Ok [mkWhy "bar" "1.0.0" "bar" [None]])
  /\ format Npm.satisfies false Scenario.malformedDependent
       (Some [mkWhy "bar" "1.0.0" "bar" [None]])
     = Throw TypeError.
Proof. repeat split; vm_compute; reflexivity. Qed.

(** ** [collectLocationsFromSpecs] *)

Section Matcher.

Variable satisfies : string -> string -> bool.
Variable validForOldPackages : string -> bool.

(** The only exception of the loop over [specs] is the invalid-spec error. *)
Lemma collectSpec_throw (packages : Packages) (collected : list string) (spec : string)
  (e : exn) :
  collectSpec satisfies validForOldPackages packages collected spec = Throw e ->
  e = invalidSpec spec.
Proof.
  unfold collectSpec.
  destruct (validForOldPackages spec); [discriminate|].
  destruct (truthy _); [discriminate|].
  destruct (0 <? _); [discriminate|congruence].
Qed.

Lemma collect_throw (packages : Packages) (specs : list string) (spec : string) :
  spec ∈ specs ->
  (forall collected,
     collectSpec satisfies validForOldPackages packages collected spec
     = Throw (invalidSpec spec)) ->
  forall collected, exists bad,
    foldM (collectSpec satisfies validForOldPackages packages) specs collected
    = Throw (invalidSpec bad).
Proof.
  intros Hin Hthrow. induction specs as [|s specs IH]; [inversion Hin|].
  intros collected. simpl.
  destruct (collectSpec _ _ packages collected s) as [collected'|e] eqn:Hs; simpl.
  - apply elem_of_cons in Hin as [->|Hin]; [by rewrite Hthrow in Hs|by apply IH].
  - apply collectSpec_throw in Hs as ->. eauto.
Qed.

(** A query of the third form [name@range]: neither a valid name nor a
    property of [packages]. *)
Lemma collectSpec_name_range (packages : Packages) (collected : list string)
  (name range : string) :
  validForOldPackages (name +:+ "@" +:+ range) = false ->
  truthy (get packages (normalize (name +:+ "@" +:+ range))) = false ->
  name <> "" ->
  JsString.indexOf name "@" 1 = -1 ->
  collectSpec satisfies validForOldPackages packages collected (name +:+ "@" +:+ range)
  = Ok (bySpec satisfies packages name (JsString.orElse range "*") collected).
Proof.
  intros Hvalid Hprop Hname Hat. unfold collectSpec. rewrite Hvalid, Hprop.
  replace (name +:+ "@" +:+ range) with (name +:+ String "@" range) by reflexivity.
  rewrite indexOf_append by done.
  destruct name as [|c name]; [done|].
  replace (0 <? _) with true by (symmetry; apply Z.ltb_lt; simpl String.length; lia).
  rewrite slice_suffix.
  replace (String c name +:+ String "@" range) with (String c name +:+ "@" +:+ range)
    by reflexivity.
  rewrite slice_prefix. reflexivity.
Qed.

End Matcher.

(** C6, as amended.  For a query spec that is not a valid bare package name
    and whose normalized form is not a property of the [packages] object:
    if the spec is [name@range] with [name] not empty and without [@] after
    its first character (so the spec is split at its first [@] of index 1 or
    more, not at its last), the locations are those matched by name and
    range, the range being [*] when nothing follows the [@]; if the spec has
    no [@] at index 1 or later, collecting fails with the error that tells
    the expected syntax, and so does every call of [explain] whose specs
    contain it, once the lockfile is read. *)
Theorem spec_split_at_first_at (satisfies : string -> string -> bool)
  (validForOldPackages : string -> bool) (lockfile : BunLockfile) (spec : string) :
  validForOldPackages spec = false ->
  truthy (get (packages lockfile) (normalize spec)) = false ->
  (forall name range,
     spec = name +:+ "@" +:+ range ->
     name <> "" ->
     (forall i, (1 <= i)%nat -> String.get i name <> Some "@"%char) ->
     collectLocationsFromSpecs satisfies validForOldPackages (packages lockfile) [spec]
     = Ok (bySpec satisfies (packages lockfile) name (JsString.orElse range "*") []))
  /\ ((forall i, (1 <= i)%nat -> String.get i spec <> Some "@"%char) ->
      collectLocationsFromSpecs satisfies validForOldPackages (packages lockfile) [spec]
      = Throw (invalidSpec spec)
      /\ forall specs fuel read,
           readLockfile satisfies lockfile = Ok read ->
           spec ∈ specs ->
           exists bad,
             explain satisfies validForOldPackages fuel lockfile specs
             = Some (Throw (invalidSpec bad))).
Proof.
  intros Hvalid Hprop. split.
  - intros name range -> Hname Hat. apply indexOf_none in Hat.
    unfold collectLocationsFromSpecs. simpl.
    rewrite collectSpec_name_range by done. reflexivity.
  - intros Hat. apply indexOf_none in Hat.
    assert (Hthrow : forall collected,
               collectSpec satisfies validForOldPackages (packages lockfile) collected spec
               = Throw (invalidSpec spec)).
    { intros collected. unfold collectSpec. rewrite Hvalid, Hprop, Hat. reflexivity. }
    split.
    + unfold collectLocationsFromSpecs. simpl. rewrite Hthrow. reflexivity.
    + intros specs fuel read Hread Hin. unfold explain. rewrite Hread.
      destruct (readLockfile_indexed _ _ _ Hread) as [Hpackages _].
      destruct read as [ps d]. simpl in Hpackages. subst ps.
      unfold collectLocationsFromSpecs.
      destruct (collect_throw satisfies validForOldPackages (packages lockfile) specs spec
                  Hin Hthrow []) as [bad ->].
      eauto.
Qed.

Lemma spec_split_at_first_at_witness :
  (forall name range,
     "@scope/bar@^1.0.0" = name +:+ "@" +:+ range ->
     name <> "" ->
     (forall i, (1 <= i)%nat -> String.get i name <> Some "@"%char) ->
     collectLocationsFromSpecs Npm.satisfies Npm.validForOldPackages
       (packages Scenario.fooBar) ["@scope/bar@^1.0.0"]
     = Ok (bySpec Npm.satisfies (packages Scenario.fooBar) name
             (JsString.orElse range "*") []))
  /\ ((forall i, (1 <= i)%nat -> String.get i "@scope/bar@^1.0.0" <> Some "@"%char) ->
      collectLocationsFromSpecs Npm.satisfies Npm.validForOldPackages
        (packages Scenario.fooBar) ["@scope/bar@^1.0.0"]
      = Throw (invalidSpec "@scope/bar@^1.0.0")
      /\ forall specs fuel read,
           readLockfile Npm.satisfies Scenario.fooBar = Ok read ->
           "@scope/bar@^1.0.0" ∈ specs ->
           exists bad,
             explain Npm.satisfies Npm.validForOldPackages fuel Scenario.fooBar specs
             = Some (Throw (invalidSpec bad))).
Proof.
  apply (spec_split_at_first_at Npm.satisfies Npm.validForOldPackages Scenario.fooBar
           "@scope/bar@^1.0.0"); reflexivity.
Defined.

Example collect_name_range :
  collectLocationsFromSpecs Npm.satisfies Npm.validForOldPackages
    Scenario.twoBars ["bar@^2.0.0"; "bar@"; "foo@1"]
  = Ok ["foo/bar"; "bar"]
  /\ collectLocationsFromSpecs Npm.satisfies Npm.validForOldPackages
       Scenario.twoBars ["bar"; "@"]
     = Throw (invalidSpec "@").
Proof. split; reflexivity. Qed.

(** The query [foo/@scope/bar@] on a lockfile that has the location
    [foo/@scope/bar]: split at its last [@], as C6 has it, the query is the
    name [foo/@scope/bar] with the range [*] and matches that location;
    [collectLocationsFromSpecs] splits it at its first [@] of index 1 or
    more, into the name [foo/] and the range [scope/bar@], and matches
    nothing. *)
Lemma spec_split_at_last_at_counterexample :
  Npm.validForOldPackages "foo/@scope/bar@" = false
  /\ hasOwn Scenario.scopedNested (normalize "foo/@scope/bar@") = false
  /\ splitAsStated "foo/@scope/bar@" = Some ("foo/@scope/bar", "*")
  /\ matchAsStated Npm.satisfies Scenario.scopedNested "foo/@scope/bar@"
     = Ok ["foo/@scope/bar"]
  /\ collectLocationsFromSpecs Npm.satisfies Npm.validForOldPackages
       Scenario.scopedNested ["foo/@scope/bar@"]
     = Ok [].
Proof. repeat split. Qed.

(** A query that names a property inherited from [Object.prototype] and has
    no [@] at index 1 or later: the property read is truthy, [byLocation]
    finds no own property, and nothing is thrown. *)
Example collect_inherited_name :
  Npm.validForOldPackages "__proto__" = false
  /\ hasOwn Scenario.scopedNested (normalize "__proto__") = false
  /\ JsString.indexOf "__proto__" "@" 1 = -1
  /\ collectLocationsFromSpecs Npm.satisfies Npm.validForOldPackages
       Scenario.scopedNested ["__proto__"]
     = Ok [].
Proof. repeat split. Qed.

(** C7, as amended.  For a lockfile, and a valid bare package name [n] (a
    name is not empty and has no [@] after its first character, and [n@*] is
    not a valid bare name) such that the normalized query [n@*] is not a
    property of the [packages] object: the locations matched by the query
    [n@*] are those matched by the bare query [n], in the same order. *)
Theorem name_star_same_as_name (satisfies : string -> string -> bool)
  (validForOldPackages : string -> bool) (packages : Packages) (n : string) :
  validForOldPackages n = true ->
  validForOldPackages (n +:+ "@*") = false ->
  n <> "" ->
  (forall i, (1 <= i)%nat -> String.get i n <> Some "@"%char) ->
  truthy (get packages (normalize (n +:+ "@*"))) = false ->
  collectLocationsFromSpecs satisfies validForOldPackages packages [n +:+ "@*"]
  = collectLocationsFromSpecs satisfies validForOldPackages packages [n].
Proof.
  intros Hn Hstar Hname Hat Hprop. apply indexOf_none in Hat.
  unfold collectLocationsFromSpecs. simpl.
  replace (n +:+ "@*") with (n +:+ "@" +:+ "*") in * by reflexivity.
  rewrite collectSpec_name_range by done.
  unfold collectSpec at 1. rewrite Hn. reflexivity.
Qed.

Lemma name_star_same_as_name_witness :
  collectLocationsFromSpecs Npm.satisfies Npm.validForOldPackages Scenario.twoBars
    ["bar" +:+ "@*"]
  = collectLocationsFromSpecs Npm.satisfies Npm.validForOldPackages Scenario.twoBars ["bar"].
Proof.
  apply (name_star_same_as_name Npm.satisfies Npm.validForOldPackages Scenario.twoBars "bar");
    try reflexivity.
  - discriminate.
  - apply indexOf_none. reflexivity.
Defined.

(** A lockfile with the location key [foo@*]: the query [foo@*] is that
    location and nothing else, the bare query [foo] is the package [foo]. *)
Lemma name_star_counterexample :
  Npm.validForOldPackages "foo" = true
  /\ collectLocationsFromSpecs Npm.satisfies Npm.validForOldPackages Scenario.starKey
       ["foo" +:+ "@*"] = Ok ["foo@*"]
  /\ collectLocationsFromSpecs Npm.satisfies Npm.validForOldPackages Scenario.starKey
       ["foo"] = Ok ["foo"].
Proof. repeat split. Qed.

(** With the name check of the instance, C7 as amended has no other
    hypothesis than its two own. *)
Lemma name_star_same_as_name_instance (satisfies : string -> string -> bool)
  (packages : Packages) (n : string) :
  Npm.validForOldPackages n = true ->
  truthy (get packages (normalize (n +:+ "@*"))) = false ->
  collectLocationsFromSpecs satisfies Npm.validForOldPackages packages [n +:+ "@*"]
  = collectLocationsFromSpecs satisfies Npm.validForOldPackages packages [n].
Proof.
  intros Hn Hprop. destruct (valid_name_no_at n Hn) as [Hne Hat].
  unfold collectLocationsFromSpecs. simpl.
  change (n +:+ "@*") with (n +:+ "@" +:+ "*") in *.
  rewrite collectSpec_name_range; [|by apply valid_name_star|done..].
  unfold collectSpec at 1. rewrite Hn. reflexivity.
Qed.

(** C8, as amended.  For a query string that is not a valid bare package name
    and that, after its backslashes are replaced by forward slashes and its
    [/node_modules/] segments are collapsed, is a location key of the
    lockfile: the locations matched are that one location and no other. *)
Theorem explicit_location_only (satisfies : string -> string -> bool)
  (validForOldPackages : string -> bool) (packages : Packages) (spec : string) :
  validForOldPackages spec = false ->
  hasOwn packages (normalize spec) = true ->
  collectLocationsFromSpecs satisfies validForOldPackages packages [spec]
  = Ok [normalize spec].
Proof.
  intros Hvalid Hown. unfold collectLocationsFromSpecs. simpl.
  unfold collectSpec. rewrite Hvalid.
  unfold get, byLocation. unfold hasOwn in *.
  destruct (getOwn packages (normalize spec)); [reflexivity|discriminate].
Qed.

Lemma explicit_location_only_witness :
  collectLocationsFromSpecs Npm.satisfies Npm.validForOldPackages Scenario.scopedNested
    ["foo\node_modules\@scope\bar"]
  = Ok [normalize "foo\node_modules\@scope\bar"].
Proof.
  apply (explicit_location_only Npm.satisfies Npm.validForOldPackages Scenario.scopedNested
           "foo\node_modules\@scope\bar"); reflexivity.
Defined.

Example normalize_windows_path :
  normalize "foo\node_modules\@scope\bar" = "foo/@scope/bar".
Proof. reflexivity. Qed.

(** The query [bar] is itself a location key of a lockfile that also has
    [foo/bar]: it is a valid bare name, so it is matched by name and both
    locations are returned. *)
Lemma explicit_location_counterexample :
  normalize "bar" = "bar"
  /\ hasOwn Scenario.twoBars (normalize "bar") = true
  /\ collectLocationsFromSpecs Npm.satisfies Npm.validForOldPackages Scenario.twoBars ["bar"]
     = Ok ["bar"; "foo/bar"].
Proof. repeat split. Qed.

(** ** [format1] *)

Section Format.

Variable satisfies : string -> string -> bool.
Variable hasColors : bool.

(** The two loops of [rangeOf] find the first satisfied declaration. *)
Lemma rangeOf_firstSatisfied (info : PackageInfo) (name version : string) :
  rangeOf satisfies info name version = firstSatisfied satisfies info name version.
Proof.
  unfold rangeOf, firstSatisfied, declarations, declaredRange.
  destruct (dependencies (package info)) as [deps|],
           (optionalDependencies (package info)) as [optional|]; simpl.
  - induction deps as [|d deps IH]; simpl; [reflexivity|].
    destruct (_ && _); [reflexivity|exact IH].
  - rewrite app_nil_r. by destruct (List.find _ deps).
  - reflexivity.
  - reflexivity.
Qed.

(** [format1] is its first [push], the path line, and the loop over the
    dependents. *)
Lemma format1_unfold (out : list string) (packages : Packages) (why : Why) (depth : nat)
  (dependency : option Why) :
  format1 satisfies hasColors out packages why depth dependency
  = (out ← pushHead satisfies out packages why depth dependency;
     formatDependents satisfies hasColors
       (out ++ [JsString.repeat "  " depth +:+ dim hasColors (expandLocation (location why))])
       packages (dependents why) (S depth) why).
Proof.
  destruct why as [n v l ds]. simpl.
  destruct (pushHead _ _ _ _ _ _) as [out'|e]; simpl; [|reflexivity].
  generalize (out' ++ [JsString.repeat "  " depth +:+ dim hasColors (expandLocation l)]).
  generalize (mkWhy n v l ds). intros parent.
  induction ds as [|[d|] ds IH]; intros acc; simpl; [reflexivity| |reflexivity].
  destruct (format1 _ _ _ _ _ _ _) as [acc'|e]; simpl; [apply IH|reflexivity].
Qed.

(** Formatting a tree whose nodes are all present and located only adds
    lines. *)
Lemma format1_located (packages : Packages) (why : Why) :
  located packages why = true ->
  forall out depth dependency,
    exists lines, format1 satisfies hasColors out packages why depth dependency
                  = Ok (out ++ lines).
Proof.
  induction why as [n v l ds IH] using Why_nested_ind.
  intros Hlocated out depth dependency. rewrite format1_unfold.
  simpl in Hlocated. apply andb_true_iff in Hlocated as [Hown Hdeps].
  assert (Hhead : exists head,
             pushHead satisfies out packages (mkWhy n v l ds) depth dependency
             = Ok (out ++ head)).
  { unfold pushHead. simpl. unfold hasOwn in Hown.
    destruct (getOwn packages l); [|discriminate].
    destruct depth, dependency; eauto. }
  destruct Hhead as [head ->]. simpl.
  generalize (S depth). intros depth'.
  set (path := JsString.repeat "  " depth +:+ dim hasColors (expandLocation l)).
  assert (Hloop : forall acc, exists lines,
             formatDependents satisfies hasColors acc packages ds depth' (mkWhy n v l ds)
             = Ok (acc ++ lines)).
  { generalize (mkWhy n v l ds) at 1. intros parent.
    induction IH as [|[d|] rest Hd _ IHrest]; intros acc; simpl.
    - exists []. by rewrite app_nil_r.
    - simpl in Hdeps. apply andb_true_iff in Hdeps as [Hd' Hrest].
      destruct (Hd Hd' acc depth' (Some parent)) as [lines1 ->]. simpl.
      destruct (IHrest Hrest (acc ++ lines1)) as [lines2 ->].
      exists (lines1 ++ lines2). by rewrite app_assoc.
    - simpl in Hdeps. discriminate. }
  destruct (Hloop ((out ++ head) ++ [path])) as [lines ->].
  exists (head ++ [path] ++ lines). by rewrite !app_assoc.
Qed.

Lemma formatDependents_located (packages : Packages) (deps : list (option Why)) :
  forallb (fun dep => match dep with
                      | Some w => located packages w
                      | None => false
                      end) deps = true ->
  forall acc depth parent,
    exists lines, formatDependents satisfies hasColors acc packages deps depth parent
                  = Ok (acc ++ lines).
Proof.
  induction deps as [|[d|] deps IH]; simpl; intros Hall acc depth parent.
  - exists []. by rewrite app_nil_r.
  - apply andb_true_iff in Hall as [Hd Hrest].
    destruct (format1_located packages d Hd acc depth (Some parent)) as [lines1 ->]. simpl.
    destruct (IH Hrest (acc ++ lines1) depth parent) as [lines2 ->].
    exists (lines1 ++ lines2). by rewrite app_assoc.
  - discriminate.
Qed.

End Format.




(** ** The end-to-end scenario *)

Section EndToEnd.

Variable satisfies : string -> string -> bool.
Variable validForOldPackages : string -> bool.
Variable hasColors : bool.

Hypothesis satisfies_bar : satisfies "1.2.0" "^1.0.0" = true.
Hypothesis valid_bar : validForOldPackages "bar" = true.

Lemma readLockfile_fooBar :
  readLockfile satisfies Scenario.fooBar
  = Ok (packages Scenario.fooBar, {["foo/bar" := ["foo"]]}).
Proof.
  unfold readLockfile. simpl. unfold scanLocation, scanDeps, scanDep. simpl.
  replace (iterateLocations "foo" "bar") with ["foo/bar"; "bar"] by reflexivity.
  simpl.
  replace (JsString.slice _ _ _) with "1.2.0" by reflexivity.
  rewrite satisfies_bar. reflexivity.
Qed.

Lemma explain_fooBar (fuel : nat) :
  explain satisfies validForOldPackages (S (S fuel)) Scenario.fooBar ["bar"]
  = Some (Ok [Scenario.barNode]).
Proof.
  unfold explain. rewrite readLockfile_fooBar.
  unfold collectLocationsFromSpecs. simpl. unfold collectSpec. rewrite valid_bar.
  replace (byPackageName _ _ _) with ["foo/bar"] by reflexivity.
  reflexivity.
Qed.

Lemma format_fooBar :
  format satisfies hasColors Scenario.fooBar (Some [Scenario.barNode])
  = Ok (JsString.join JsString.newline
          ["bar@1.2.0";
           dim hasColors "node_modules/foo/node_modules/bar";
           "  bar@^1.0.0 from foo@1.0.0";
           "  " +:+ dim hasColors "node_modules/foo"]).
Proof.
  unfold format. rewrite readLockfile_fooBar. simpl.
  unfold pushHead, rangeOf, declaredRange. simpl.
  rewrite satisfies_bar. destruct hasColors; reflexivity.
Qed.

End EndToEnd.

(** C1, as amended.  For the lockfile whose packages are [foo] (id
    [foo@1.0.0], depending on [bar] with the range [^1.0.0]) and [foo/bar]
    (id [bar@1.2.0]), [explain(["bar"])] produces a node for the location
    [foo/bar] whose dependents are one node for the location [foo], and
    [format] of that result renders the line [bar@1.2.0], then its expanded
    path, then the indented line [bar@^1.0.0 from foo@1.0.0] (the name and
    the range are those of the dependency [foo] declares, the package after
    [from] is the dependent), then the indented expanded path of [foo]. *)
Theorem scenario_explain_format (satisfies : string -> string -> bool)
  (validForOldPackages : string -> bool) (hasColors : bool) (fuel : nat) :
  satisfies "1.2.0" "^1.0.0" = true ->
  validForOldPackages "bar" = true ->
  explain satisfies validForOldPackages (S (S fuel)) Scenario.fooBar ["bar"]
  = Some (Ok [mkWhy "bar" "1.2.0" "foo/bar" [Some (mkWhy "foo" "1.0.0" "foo" [])]])
  /\ format satisfies hasColors Scenario.fooBar
       (Some [mkWhy "bar" "1.2.0" "foo/bar" [Some (mkWhy "foo" "1.0.0" "foo" [])]])
     = Ok (JsString.join JsString.newline
             ["bar@1.2.0";
              dim hasColors "node_modules/foo/node_modules/bar";
              "  bar@^1.0.0 from foo@1.0.0";
              "  " +:+ dim hasColors "node_modules/foo"]).
Proof.
  intros Hsat Hvalid. split.
  - by apply explain_fooBar.
  - by apply format_fooBar.
Qed.

Lemma scenario_explain_format_witness :
  explain Npm.satisfies Npm.validForOldPackages 2 Scenario.fooBar ["bar"]
  = Some (Ok [mkWhy "bar" "1.2.0" "foo/bar" [Some (mkWhy "foo" "1.0.0" "foo" [])]])
  /\ format Npm.satisfies false Scenario.fooBar
       (Some [mkWhy "bar" "1.2.0" "foo/bar" [Some (mkWhy "foo" "1.0.0" "foo" [])]])
     = Ok (JsString.join JsString.newline
             ["bar@1.2.0";
              dim false "node_modules/foo/node_modules/bar";
              "  bar@^1.0.0 from foo@1.0.0";
              "  " +:+ dim false "node_modules/foo"]).
Proof.
  apply (scenario_explain_format Npm.satisfies Npm.validForOldPackages false 0);
    reflexivity.
Defined.

(** The line C1 expects, [foo@^1.0.0 from foo@1.0.0], is not in the output. *)
Lemma scenario_line_counterexample :
  explain Npm.satisfies Npm.validForOldPackages 2 Scenario.fooBar ["bar"]
  = Some (Ok [Scenario.barNode])
  /\ exists text,
       format Npm.satisfies false Scenario.fooBar (Some [Scenario.barNode]) = Ok text
       /\ linesOf text = ["bar@1.2.0"; "node_modules/foo/node_modules/bar";
                          "  bar@^1.0.0 from foo@1.0.0"; "  node_modules/foo"]
       /\ "  foo@^1.0.0 from foo@1.0.0" ∉ linesOf text.
Proof.
  split; [reflexivity|]. eexists. split; [reflexivity|]. split; [reflexivity|].
  vm_compute linesOf. intros Hin.
  repeat (apply elem_of_cons in Hin as [Hin|Hin]; [discriminate|]).
  inversion Hin.
Qed.

(** ** Empty queries and empty results *)



(** [format] returns before it reads the lockfile when there is nothing to
    print. *)
Lemma format_empty (satisfies : string -> string -> bool) (hasColors : bool)
  (lockfile : BunLockfile) :
  format satisfies hasColors lockfile None = Ok ""
  /\ format satisfies hasColors lockfile (Some []) = Ok "".
Proof. split; reflexivity. Qed.

(** * Further properties *)

(** ** The dependent index *)

Section IndexProperties.

Variable satisfies : string -> string -> bool.

Lemma pushDependent_nonempty (dependents : gmap string (list string))
  (maybeLoc location x : string) (locs : list string) :
  (forall y l, dependents !! y = Some l -> l <> []) ->
  pushDependent dependents maybeLoc location !! x = Some locs -> locs <> [].
Proof.
  intros Hinv. unfold pushDependent. destruct (decide (maybeLoc = x)) as [->|Hne].
  - rewrite lookup_insert_eq. intros [= <-]. by destruct (default [] _).
  - rewrite lookup_insert_ne by done. apply Hinv.
Qed.

Lemma scanDeps_nonempty (packages : Packages) (location : string)
  (deps : option (list (string * string))) (dependents dependents' : gmap string (list string)) :
  (forall y l, dependents !! y = Some l -> l <> []) ->
  scanDeps satisfies packages location deps dependents = Ok dependents' ->
  forall y l, dependents' !! y = Some l -> l <> [].
Proof.
  intros Hinv. destruct deps as [l|]; simpl; [|by intros [= <-]].
  apply (foldM_invariant (fun d => forall y l, d !! y = Some l -> l <> [])); [|done].
  intros acc dep acc' _ Hacc. unfold scanDep.
  destruct (firstMatch satisfies packages dep.2 _) as [[maybeLoc|]|e];
    simpl; [| by intros [= <-] | discriminate].
  intros [= <-] y l'. by apply pushDependent_nonempty.
Qed.

Lemma readLockfile_nonempty (lockfile : BunLockfile)
  (read : Packages * gmap string (list string)) :
  readLockfile satisfies lockfile = Ok read ->
  forall y l, read.2 !! y = Some l -> l <> [].
Proof.
  unfold readLockfile.
  destruct (foldM _ _ _) as [d|e] eqn:Hfold; simpl; [|discriminate].
  intros [= <-]. simpl. revert Hfold.
  apply (foldM_invariant (fun d => forall y l, d !! y = Some l -> l <> [])).
  - intros acc entry acc' _ Hacc. unfold scanLocation.
    destruct (scanDeps satisfies _ entry.1 (dependencies _) acc) as [mid|e] eqn:Hmid;
      simpl; [|discriminate].
    intros Hscan. eapply scanDeps_nonempty; [|exact Hscan].
    eapply scanDeps_nonempty; [exact Hacc|exact Hmid].
  - intros y l. rewrite lookup_empty. discriminate.
Qed.

End IndexProperties.

(** X1.  In the index that [readLockfile] returns, a key is a location of the
    lockfile whose id has an [@] at index 1 or later, its list of dependents
    is not empty, and every dependent in it is a location of the lockfile;
    the packages returned are those of the lockfile. *)
Theorem readLockfile_index_in_lockfile (satisfies : string -> string -> bool)
  (lockfile : BunLockfile) (read : Packages * gmap string (list string))
  (x : string) (locs : list string) :
  readLockfile satisfies lockfile = Ok read ->
  read.2 !! x = Some locs ->
  read.1 = packages lockfile
  /\ (exists info, getOwn (packages lockfile) x = Some info
                   /\ 0 < JsString.indexOf (name_version info) "@" 1)
  /\ locs <> []
  /\ forall y, y ∈ locs -> hasOwn (packages lockfile) y = true.
Proof.
  intros Hread Hx.
  destruct (readLockfile_indexed _ _ _ Hread) as [Hps Hindex].
  destruct (Hindex x locs Hx) as [Hkey Hdeps]. rewrite Hps in *.
  split; [done|]. split; [done|]. split.
  - by apply (readLockfile_nonempty _ _ _ Hread x).
  - intros y Hy. apply Hdeps, getOwn_keys in Hy as [v Hv]. unfold hasOwn. by rewrite Hv.
Qed.

Lemma readLockfile_index_in_lockfile_witness :
  (packages Scenario.mutual, ({["b" := ["a"]; "a" := ["b"]]} : gmap string (list string))).1
  = packages Scenario.mutual
  /\ (exists info, getOwn (packages Scenario.mutual) "a" = Some info
                   /\ 0 < JsString.indexOf (name_version info) "@" 1)
  /\ ["b"] <> []
  /\ forall y, y ∈ ["b"] -> hasOwn (packages Scenario.mutual) y = true.
Proof.
  apply (readLockfile_index_in_lockfile Npm.satisfies Scenario.mutual
           (packages Scenario.mutual, {["b" := ["a"]; "a" := ["b"]]}) "a" ["b"]).
  - vm_compute. reflexivity.
  - vm_compute. reflexivity.
Defined.

(** X2.  The list of dependents that the index holds for a location is, in
    the order of the lockfile and then of the declarations of each package
    ([dependencies] before [optionalDependencies]), the requiring location
    once for every declaration whose loop over the candidates breaks at that
    location; a location without such a declaration has no list. *)
Theorem readLockfile_dependents_in_order (satisfies : string -> string -> bool)
  (lockfile : BunLockfile) (read : Packages * gmap string (list string)) (target : string) :
  readLockfile satisfies lockfile = Ok read ->
  default [] (read.2 !! target)
  = flat_map (fun entry : string * PackageInfo =>
                edgesOf satisfies (packages lockfile) entry.1 (declarations entry.2) target)
      (packages lockfile)
  /\ (read.2 !! target = None <->
      flat_map (fun entry : string * PackageInfo =>
                  edgesOf satisfies (packages lockfile) entry.1 (declarations entry.2) target)
        (packages lockfile) = []).
Proof.
  intros Hread. pose proof (readLockfile_edges _ _ _ Hread target) as Hedges.
  split; [done|]. rewrite <- Hedges.
  destruct (read.2 !! target) as [locs|] eqn:Hlocs; simpl; [|done].
  split; [discriminate|]. intros ->.
  by destruct (readLockfile_nonempty _ _ _ Hread target []).
Qed.

Lemma readLockfile_dependents_in_order_witness :
  default [] ((packages Scenario.fooBar,
               ({["foo/bar" := ["foo"]]} : gmap string (list string))).2 !! "foo/bar")
  = flat_map (fun entry : string * PackageInfo =>
                edgesOf Npm.satisfies (packages Scenario.fooBar) entry.1
                  (declarations entry.2) "foo/bar")
      (packages Scenario.fooBar)
  /\ ((packages Scenario.fooBar,
       ({["foo/bar" := ["foo"]]} : gmap string (list string))).2 !! "foo/bar" = None <->
      flat_map (fun entry : string * PackageInfo =>
                  edgesOf Npm.satisfies (packages Scenario.fooBar) entry.1
                    (declarations entry.2) "foo/bar")
        (packages Scenario.fooBar) = []).
Proof.
  apply (readLockfile_dependents_in_order Npm.satisfies Scenario.fooBar
           (packages Scenario.fooBar, {["foo/bar" := ["foo"]]}) "foo/bar").
  vm_compute. reflexivity.
Defined.

(** X3.  When the loop over the candidates of a declaration ends without an
    exception: if it breaks, it breaks at the first candidate that is a
    location of the lockfile, has an id with a version, and whose version
    satisfies the range; if it does not break, no candidate is such. *)
Theorem firstMatch_first_eligible (satisfies : string -> string -> bool)
  (packages : Packages) (range : string) (candidates : list string)
  (found : option string) :
  firstMatch satisfies packages range candidates = Ok found ->
  match found with
  | Some maybeLoc =>
      exists before after,
        candidates = before ++ maybeLoc :: after
        /\ eligible satisfies packages range maybeLoc
        /\ forall c, c ∈ before -> ~ eligible satisfies packages range c
  | None => forall c, c ∈ candidates -> ~ eligible satisfies packages range c
  end.
Proof.
  destruct found as [maybeLoc|]; [apply firstMatch_first|apply firstMatch_none].
Qed.

Lemma firstMatch_first_eligible_witness :
  exists before after,
    iterateLocations "foo" "bar" = before ++ "bar" :: after
    /\ eligible Npm.satisfies Scenario.twoBars "^1.0.0" "bar"
    /\ forall c, c ∈ before -> ~ eligible Npm.satisfies Scenario.twoBars "^1.0.0" c.
Proof.
  apply (firstMatch_first_eligible Npm.satisfies Scenario.twoBars "^1.0.0"
           (iterateLocations "foo" "bar") (Some "bar")).
  reflexivity.
Defined.

(** X4.  [readLockfile] returns, with the packages of the lockfile, when no
    declared dependency is named like a property of [Object.prototype]. *)
Theorem readLockfile_returns_without_inherited (satisfies : string -> string -> bool)
  (lockfile : BunLockfile) :
  (forall entry dep,
     entry ∈ packages lockfile -> dep ∈ declarations entry.2 -> dep.1 ∉ ObjectPrototype) ->
  exists dependents, readLockfile satisfies lockfile = Ok (packages lockfile, dependents).
Proof. apply readLockfile_returns. Qed.

Lemma readLockfile_returns_without_inherited_witness :
  exists dependents,
    readLockfile Npm.satisfies Scenario.fooBar = Ok (packages Scenario.fooBar, dependents).
Proof.
  apply (readLockfile_returns_without_inherited Npm.satisfies Scenario.fooBar).
  intros entry dep Hentry Hdep Hproto.
  apply list_elem_of_In in Hentry, Hdep, Hproto.
  destruct Hentry as [<-|[<-|[]]]; vm_compute in Hdep; [|done].
  destruct Hdep as [<-|[]]. vm_compute in Hproto. intuition discriminate.
Defined.

Lemma foldM_throw {A S : Type} (body : S -> A -> completion S) (l : list A) (acc : S)
  (e : exn) :
  foldM body l acc = Throw e -> exists acc' x, x ∈ l /\ body acc' x = Throw e.
Proof.
  revert acc; induction l as [|x l IH]; intros acc; simpl; [discriminate|].
  destruct (body acc x) as [acc'|e'] eqn:Hbody; simpl.
  - intros Hrest. destruct (IH _ Hrest) as (a & y & Hy & Hthrow).
    exists a, y. split; [by apply list_elem_of_further|done].
  - intros [= <-]. exists acc, x. split; [apply list_elem_of_here|done].
Qed.

Lemma firstMatch_throw (satisfies : string -> string -> bool) (packages : Packages)
  (range : string) (candidates : list string) (e : exn) :
  firstMatch satisfies packages range candidates = Throw e ->
  e = TypeError /\ exists c, c ∈ candidates /\ get packages c = Inherited.
Proof.
  induction candidates as [|c candidates IH]; simpl; [discriminate|]. intros Hthrow.
  assert (Hrest : firstMatch satisfies packages range candidates = Throw e ->
                  e = TypeError
                  /\ exists c', c' ∈ c :: candidates /\ get packages c' = Inherited).
  { intros H. destruct (IH H) as [-> (c' & Hc' & Hget)].
    split; [done|]. exists c'. split; [by apply list_elem_of_further|done]. }
  destruct (get packages c) as [info| |] eqn:Hget; [| |auto].
  - destruct (0 <? _); [destruct (satisfies _ range); [discriminate|]|]; auto.
  - injection Hthrow as <-. split; [done|].
    exists c. split; [apply list_elem_of_here|done].
Qed.

(** X5.  The only exception of [readLockfile] is a [TypeError], and it is
    thrown only when some package declares a dependency whose name is a
    property of [Object.prototype] and is not a location of the lockfile. *)
Theorem readLockfile_throws_on_inherited (satisfies : string -> string -> bool)
  (lockfile : BunLockfile) (e : exn) :
  readLockfile satisfies lockfile = Throw e ->
  e = TypeError
  /\ exists entry dep,
       entry ∈ packages lockfile
       /\ dep ∈ declarations entry.2
       /\ dep.1 ∈ ObjectPrototype
       /\ hasOwn (packages lockfile) dep.1 = false.
Proof.
  unfold readLockfile.
  destruct (foldM _ _ _) as [d|e'] eqn:Hfold; simpl; [discriminate|]. intros [= ->].
  apply foldM_throw in Hfold as (acc & entry & Hentry & Hscan).
  assert (Hdeps : forall deps d,
             (forall dep, dep ∈ default [] deps -> dep ∈ declarations entry.2) ->
             scanDeps satisfies (packages lockfile) entry.1 deps d = Throw e ->
             e = TypeError
             /\ exists dep, dep ∈ declarations entry.2 /\ dep.1 ∈ ObjectPrototype
                            /\ hasOwn (packages lockfile) dep.1 = false).
  { intros [l|] d Hsub; simpl; [|discriminate]. intros Hthrow.
    apply foldM_throw in Hthrow as (acc' & dep & Hdep & Hthrow).
    unfold scanDep in Hthrow.
    destruct (firstMatch satisfies _ dep.2 _) as [found|e'] eqn:Hfirst;
      simpl in Hthrow; [by destruct found|].
    injection Hthrow as ->.
    apply firstMatch_throw in Hfirst as [-> (c & Hc & Hget)]. split; [done|].
    pose proof (iterateLocations_inherited _ _ _ _ Hc Hget) as ->.
    exists dep. split; [by apply Hsub|].
    unfold get in Hget. unfold hasOwn.
    destruct (getOwn (packages lockfile) dep.1); [discriminate|].
    case_bool_decide; [done|discriminate]. }
  unfold scanLocation in Hscan.
  destruct (scanDeps satisfies _ entry.1 (dependencies _) acc) as [mid|e'] eqn:Hmid;
    simpl in Hscan.
  - destruct (Hdeps _ _ (fun dep H => proj2 (elem_of_app _ _ dep) (or_intror H)) Hscan)
      as [-> (dep & Hdep)].
    split; [done|]. by exists entry, dep.
  - injection Hscan as ->.
    destruct (Hdeps _ _ (fun dep H => proj2 (elem_of_app _ _ dep) (or_introl H)) Hmid)
      as [-> (dep & Hdep)].
    split; [done|]. by exists entry, dep.
Qed.

Lemma readLockfile_throws_on_inherited_witness :
  TypeError = TypeError
  /\ exists entry dep,
       entry ∈ packages Scenario.inheritedName
       /\ dep ∈ declarations entry.2
       /\ dep.1 ∈ ObjectPrototype
       /\ hasOwn (packages Scenario.inheritedName) dep.1 = false.
Proof.
  apply (readLockfile_throws_on_inherited Npm.satisfies Scenario.inheritedName TypeError).
  reflexivity.
Defined.

(** ** [makeWhy] *)

Lemma find_split (c : ascii) (s : string) (k : nat) :
  JsString.find c s = Some k ->
  exists a b, s = a +:+ String c b /\ String.length a = k /\ JsString.find c a = None.
Proof.
  revert k; induction s as [|x s IH]; intros k; simpl; [discriminate|].
  destruct (Ascii.eqb_spec x c) as [->|Hne].
  - intros [= <-]. by exists "", s.
  - destruct (JsString.find c s) as [j|]; simpl; [|discriminate].
    intros [= <-]. destruct (IH j eq_refl) as (a & b & -> & <- & Hnone).
    exists (String x a), b. split; [reflexivity|]. split; [reflexivity|].
    simpl. rewrite (proj2 (Ascii.eqb_neq x c) Hne). by rewrite Hnone.
Qed.

(** An id with an [@] at index 1 or later is a non-empty name without [@]
    after its first character, the [@], and the rest. *)
Lemma indexOf_split (s : string) (c : ascii) :
  0 < JsString.indexOf s c 1 ->
  exists a b,
    s = a +:+ String c b
    /\ a <> ""
    /\ JsString.indexOf a c 1 = -1
    /\ JsString.indexOf s c 1 = Z.of_nat (String.length a).
Proof.
  unfold JsString.indexOf at 1.
  destruct s as [|x s]; simpl; [lia|].
  destruct (JsString.find c s) as [k|] eqn:Hfind; [|lia]. intros _.
  destruct (find_split c s k Hfind) as (a & b & -> & <- & Hnone).
  exists (String x a), b. split; [reflexivity|]. split; [done|].
  assert (Hat : JsString.indexOf (String x a) c 1 = -1).
  { unfold JsString.indexOf. simpl. by rewrite Hnone. }
  split; [done|].
  change (String x (a +:+ String c b)) with (String x a +:+ String c b).
  by rewrite indexOf_append.
Qed.

Lemma mapOutcome_Forall2 {A B : Type} (f : A -> option (completion B)) (l : list A)
  (ys : list B) :
  mapOutcome f l = Some (Ok ys) -> Forall2 (fun x y => f x = Some (Ok y)) l ys.
Proof.
  revert ys; induction l as [|x l IH]; intros ys; simpl.
  - intros [= <-]. constructor.
  - destruct (f x) as [[y|e]|] eqn:Hx; [|discriminate..].
    destruct (mapOutcome f l) as [[zs|e]|]; [|discriminate..].
    intros [= <-]. constructor; [done|by apply IH].
Qed.

Lemma makeWhy_present (fuel : nat) (loc : string) (packages : Packages)
  (index : gmap string (list string)) (why : Why) :
  makeWhy fuel loc packages index = Some (Ok (Some why)) ->
  exists info,
    getOwn packages loc = Some info
    /\ 0 < JsString.indexOf (name_version info) "@" 1
    /\ location why = loc
    /\ name why = JsString.slice (name_version info) 0
                    (Some (JsString.indexOf (name_version info) "@" 1))
    /\ version why = JsString.slice (name_version info)
                       (JsString.indexOf (name_version info) "@" 1 + 1) None
    /\ match fuel with
       | O => False
       | S fuel' =>
           mapOutcome (fun l => makeWhy fuel' l packages index) (default [] (index !! loc))
           = Some (Ok (dependents why))
       end.
Proof.
  destruct fuel as [|fuel]; simpl; [discriminate|].
  destruct (getOwn packages loc) as [info|]; [|discriminate].
  destruct (_ <=? 0) eqn:Hi; [discriminate|]. apply Z.leb_gt in Hi.
  destruct (index !! loc) as [locs|]; simpl.
  - destruct (mapOutcome _ locs) as [[ds|e]|]; [|discriminate..].
    intros [= <-]. exists info. by repeat split.
  - intros [= <-]. exists info. by repeat split.
Qed.

Lemma makeWhy_absent (fuel : nat) (loc : string) (packages : Packages)
  (index : gmap string (list string)) :
  makeWhy fuel loc packages index = Some (Ok None) ->
  exists info,
    getOwn packages loc = Some info
    /\ JsString.indexOf (name_version info) "@" 1 = -1.
Proof.
  destruct fuel as [|fuel]; simpl; [discriminate|].
  destruct (getOwn packages loc) as [info|]; [|discriminate].
  destruct (_ <=? 0) eqn:Hi.
  - intros _. exists info. split; [done|]. apply Z.leb_le in Hi.
    destruct (indexOf_nonneg (name_version info) "@" 1); lia.
  - destruct (index !! loc) as [locs|]; [|discriminate].
    destruct (mapOutcome _ locs) as [[ds|e]|]; discriminate.
Qed.

(** X6.  A node that [makeWhy] returns for a location of the lockfile: its
    location is that location; its name, an [@] and its version make up the
    id of the package, the name being not empty and without [@] after its
    first character; and its dependents are, one for one and in order, those
    that the index lists for the location, an absent entry standing for a
    dependent whose id has no [@] at index 1 or later. *)
Theorem makeWhy_node (fuel : nat) (loc : string) (packages : Packages)
  (index : gmap string (list string)) (why : Why) :
  makeWhy fuel loc packages index = Some (Ok (Some why)) ->
  exists info,
    getOwn packages loc = Some info
    /\ location why = loc
    /\ name why +:+ "@" +:+ version why = name_version info
    /\ name why <> ""
    /\ JsString.indexOf (name why) "@" 1 = -1
    /\ Forall2 (fun l dep =>
                  match dep with
                  | Some w => location w = l
                  | None => exists info',
                              getOwn packages l = Some info'
                              /\ JsString.indexOf (name_version info') "@" 1 = -1
                  end)
         (default [] (index !! loc)) (dependents why).
Proof.
  intros Hwhy.
  destruct (makeWhy_present _ _ _ _ _ Hwhy) as (info & Hown & Hi & Hloc & Hname & Hver & Hdeps).
  exists info. split; [done|]. split; [done|].
  destruct (indexOf_split _ _ Hi) as (a & b & Hid & Ha & Hat & Hlen).
  rewrite Hname, Hver, Hid in *. clear Hname Hver.
  rewrite Hlen, slice_suffix.
  change (a +:+ String "@" b) with (a +:+ "@" +:+ b). rewrite slice_prefix.
  split; [done|]. split; [done|]. split; [done|].
  destruct fuel as [|fuel]; [done|].
  apply mapOutcome_Forall2 in Hdeps.
  eapply Forall2_impl; [exact Hdeps|].
  intros l [w|] Hl; simpl in Hl.
  - by destruct (makeWhy_present _ _ _ _ _ Hl) as (_ & _ & _ & ? & _).
  - by apply makeWhy_absent in Hl.
Qed.

Lemma makeWhy_node_witness :
  exists info,
    getOwn (packages Scenario.malformedDependent) "bar" = Some info
    /\ location (mkWhy "bar" "1.0.0" "bar" [None]) = "bar"
    /\ name (mkWhy "bar" "1.0.0" "bar" [None]) +:+ "@"
       +:+ version (mkWhy "bar" "1.0.0" "bar" [None]) = name_version info
    /\ name (mkWhy "bar" "1.0.0" "bar" [None]) <> ""
    /\ JsString.indexOf (name (mkWhy "bar" "1.0.0" "bar" [None])) "@" 1 = -1
    /\ Forall2 (fun l dep =>
                  match dep with
                  | Some w => location w = l
                  | None => exists info',
                              getOwn (packages Scenario.malformedDependent) l = Some info'
                              /\ JsString.indexOf (name_version info') "@" 1 = -1
                  end)
         (default [] (({["bar" := ["baz"]]} : gmap string (list string)) !! "bar"))
         (dependents (mkWhy "bar" "1.0.0" "bar" [None])).
Proof.
  apply (makeWhy_node 2 "bar" (packages Scenario.malformedDependent) {["bar" := ["baz"]]}).
  vm_compute. reflexivity.
Defined.

Lemma mapOutcome_mono {A B : Type} (f g : A -> option (completion B)) (l : list A)
  (r : completion (list B)) :
  (forall x y, x ∈ l -> f x = Some y -> g x = Some y) ->
  mapOutcome f l = Some r -> mapOutcome g l = Some r.
Proof.
  revert r; induction l as [|x l IH]; intros r Hfg; simpl; [done|].
  destruct (f x) as [[y|e]|] eqn:Hx; [| |discriminate].
  - rewrite (Hfg x (Ok y)); [|apply list_elem_of_here|done].
    destruct (mapOutcome f l) as [[ys|e]|] eqn:Hrest; [| |discriminate].
    + rewrite (IH (Ok ys)); [done| |done].
      intros z w Hz. apply Hfg. by apply list_elem_of_further.
    + rewrite (IH (Throw e)); [done| |done].
      intros z w Hz. apply Hfg. by apply list_elem_of_further.
  - by rewrite (Hfg x (Throw e)); [|apply list_elem_of_here|].
Qed.

Lemma makeWhy_step (fuel : nat) (loc : string) (packages : Packages)
  (index : gmap string (list string)) :
  makeWhy (S fuel) loc packages index
  = match getOwn packages loc with
    | None => Some (Throw TypeError)
    | Some info =>
        let id := name_version info in
        let i := JsString.indexOf id "@" 1 in
        if i <=? 0 then Some (Ok None)
        else
          match index !! loc with
          | None => Some (Ok (Some (mkWhy (JsString.slice id 0 (Some i))
                                      (JsString.slice id (i + 1) None) loc [])))
          | Some locs =>
              match mapOutcome (fun l => makeWhy fuel l packages index) locs with
              | None => None
              | Some (Throw e) => Some (Throw e)
              | Some (Ok ds) =>
                  Some (Ok (Some (mkWhy (JsString.slice id 0 (Some i))
                                    (JsString.slice id (i + 1) None) loc ds)))
              end
          end
    end.
Proof. reflexivity. Qed.

Lemma makeWhy_more_fuel (fuel : nat) (loc : string) (packages : Packages)
  (index : gmap string (list string)) (r : completion (option Why)) :
  makeWhy fuel loc packages index = Some r ->
  makeWhy (S fuel) loc packages index = Some r.
Proof.
  revert loc r; induction fuel as [|fuel IH]; intros loc r; [discriminate|].
  rewrite (makeWhy_step (S fuel)), (makeWhy_step fuel).
  destruct (getOwn packages loc) as [info|]; [|done]. cbv zeta.
  destruct (_ <=? 0); [done|].
  destruct (index !! loc) as [locs|]; [|done].
  destruct (mapOutcome (fun l => makeWhy fuel l packages index) locs) as [m|] eqn:Hmap;
    [|discriminate].
  rewrite (mapOutcome_mono (fun l => makeWhy fuel l packages index)
             (fun l => makeWhy (S fuel) l packages index) locs m); [done| |done].
  intros x y _. apply IH.
Qed.

(** The depth that the model allows to the recursion does not change what
    [makeWhy] returns: once it has returned a value or thrown within some
    depth, it does the same within every greater depth. *)
Lemma makeWhy_outcome_unique (fuel fuel' : nat) (loc : string) (packages : Packages)
  (index : gmap string (list string)) (r r' : completion (option Why)) :
  makeWhy fuel loc packages index = Some r ->
  makeWhy fuel' loc packages index = Some r' ->
  r = r' /\ forall more, makeWhy (fuel + more) loc packages index = Some r.
Proof.
  assert (Hmore : forall f more x,
             makeWhy f loc packages index = Some x ->
             makeWhy (f + more) loc packages index = Some x).
  { intros f more x Hx. induction more as [|more IH].
    - by rewrite Nat.add_0_r.
    - rewrite Nat.add_succ_r. by apply makeWhy_more_fuel. }
  intros Hr Hr'. split; [|intros more; by apply Hmore].
  pose proof (Hmore fuel fuel' r Hr) as H1.
  pose proof (Hmore fuel' fuel r' Hr') as H2.
  rewrite (Nat.add_comm fuel' fuel) in H2. congruence.
Qed.

(** X7.  With the index that [readLockfile] returns, [makeWhy] throws exactly
    when the location it is called on is not a location of the lockfile, and
    what it throws is a [TypeError]. *)
Theorem makeWhy_throws_iff_missing (satisfies : string -> string -> bool)
  (lockfile : BunLockfile) (index : gmap string (list string)) (fuel : nat) (loc : string) :
  readLockfile satisfies lockfile = Ok (packages lockfile, index) ->
  ((exists e, makeWhy (S fuel) loc (packages lockfile) index = Some (Throw e))
   <-> hasOwn (packages lockfile) loc = false)
  /\ forall e, makeWhy (S fuel) loc (packages lockfile) index = Some (Throw e) ->
               e = TypeError.
Proof.
  intros Hread. destruct (readLockfile_indexed _ _ _ Hread) as [_ Hindex].
  simpl in Hindex. unfold hasOwn.
  destruct (getOwn (packages lockfile) loc) as [info|] eqn:Hown.
  - assert (Hsafe : forall e,
               makeWhy (S fuel) loc (packages lockfile) index <> Some (Throw e)).
    { intros e. apply makeWhy_no_throw; [done|]. apply getOwn_keys. eauto. }
    split; [split; [intros [e He]; by destruct (Hsafe e)|discriminate]|].
    intros e He. by destruct (Hsafe e).
  - simpl. rewrite Hown. split; [split; [done|eauto]|]. by intros e [= <-].
Qed.

Lemma makeWhy_throws_iff_missing_witness :
  ((exists e, makeWhy 1 "baz" (packages Scenario.fooBar) {["foo/bar" := ["foo"]]}
              = Some (Throw e))
   <-> hasOwn (packages Scenario.fooBar) "baz" = false)
  /\ forall e, makeWhy 1 "baz" (packages Scenario.fooBar) {["foo/bar" := ["foo"]]}
               = Some (Throw e) -> e = TypeError.
Proof.
  apply (makeWhy_throws_iff_missing Npm.satisfies Scenario.fooBar {["foo/bar" := ["foo"]]}
           0 "baz").
  vm_compute. reflexivity.
Defined.

(** ** [collectLocationsFromSpecs] *)

Lemma add_elem (x y : string) (collected : list string) :
  y ∈ add x collected <-> y ∈ collected \/ y = x.
Proof.
  unfold add. case_bool_decide as Hx.
  - split; [auto|]. by intros [H| ->].
  - by rewrite elem_of_app, list_elem_of_singleton.
Qed.

Lemma add_NoDup (x : string) (collected : list string) :
  NoDup collected -> NoDup (add x collected).
Proof.
  intros Hnodup. unfold add. case_bool_decide as Hx; [done|].
  apply NoDup_app. split; [done|]. split; [|apply NoDup_singleton].
  intros y Hy ->%list_elem_of_singleton. done.
Qed.

(** A loop that adds the key of every entry that passes a test. *)
Lemma fold_add_elem {A : Type} (test : A -> bool) (key : A -> string) (l : list A)
  (collected : list string) (y : string) :
  y ∈ fold_left (fun c e => if test e then add (key e) c else c) l collected
  <-> y ∈ collected \/ exists e, e ∈ l /\ test e = true /\ key e = y.
Proof.
  revert collected; induction l as [|e l IH]; intros collected; simpl.
  - split; [auto|]. intros [H|(e & He & _)]; [done|inversion He].
  - rewrite IH. split.
    + intros [Hy|(e' & He' & Htest & Hkey)].
      * destruct (test e) eqn:Htest; [|auto].
        apply add_elem in Hy as [Hy| ->]; [auto|].
        right. exists e. split; [apply list_elem_of_here|done].
      * right. exists e'. split; [by apply list_elem_of_further|done].
    + intros [Hy|(e' & He' & Htest & Hkey)].
      * left. destruct (test e); [|done]. apply add_elem. auto.
      * apply elem_of_cons in He' as [->|He'].
        -- left. rewrite Htest. apply add_elem. auto.
        -- right. by exists e'.
Qed.

Lemma fold_add_NoDup {A : Type} (test : A -> bool) (key : A -> string) (l : list A)
  (collected : list string) :
  NoDup collected ->
  NoDup (fold_left (fun c e => if test e then add (key e) c else c) l collected).
Proof.
  revert collected; induction l as [|e l IH]; intros collected Hnodup; simpl; [done|].
  apply IH. destruct (test e); [by apply add_NoDup|done].
Qed.

Lemma fold_left_same {A S : Type} (g h : S -> A -> S) (l : list A) (acc : S) :
  (forall c e, g c e = h c e) -> fold_left g l acc = fold_left h l acc.
Proof.
  intros Hgh. revert acc; induction l as [|e l IH]; intros acc; simpl; [done|].
  by rewrite Hgh, IH.
Qed.

Lemma byPackageName_fold (packages : Packages) (name : string) (collected : list string) :
  byPackageName packages name collected
  = fold_left (fun c e => if nameTest name e then add e.1 c else c) packages
      (if hasOwn packages name then add name collected else collected).
Proof.
  unfold byPackageName. apply fold_left_same. intros c e. unfold nameTest.
  destruct (JsString.endsWith _ _); [|reflexivity]. simpl.
  by destruct (String.eqb _ name).
Qed.

Lemma bySpec_fold (satisfies : string -> string -> bool) (packages : Packages) (name range : string) (collected : list string) :
  String.eqb range "*" = false ->
  bySpec satisfies packages name range collected
  = fold_left (fun c e => if rangeTest satisfies name range e then add e.1 c else c) packages collected.
Proof.
  intros Hrange. unfold bySpec. rewrite Hrange. apply fold_left_same.
  intros c e. unfold rangeTest.
  destruct (0 <? _); [|reflexivity]. simpl.
  destruct (String.eqb _ name); [|reflexivity]. simpl.
  by destruct (satisfies _ range).
Qed.

Lemma byPackageName_elem (packages : Packages) (name : string) (collected : list string)
  (y : string) :
  y ∈ byPackageName packages name collected
  <-> y ∈ collected
      \/ (y = name /\ hasOwn packages name = true)
      \/ exists entry, entry ∈ packages /\ nameTest name entry = true /\ entry.1 = y.
Proof.
  rewrite byPackageName_fold, fold_add_elem.
  destruct (hasOwn packages name); [rewrite add_elem|]; intuition congruence.
Qed.

Lemma bySpec_elem (satisfies : string -> string -> bool) (packages : Packages) (name range : string) (collected : list string)
  (y : string) :
  String.eqb range "*" = false ->
  y ∈ bySpec satisfies packages name range collected
  <-> y ∈ collected
      \/ exists entry, entry ∈ packages /\ rangeTest satisfies name range entry = true /\ entry.1 = y.
Proof. intros Hrange. by rewrite bySpec_fold, fold_add_elem. Qed.

Lemma byLocation_elem (packages : Packages) (loc : string) (collected : list string)
  (y : string) :
  y ∈ byLocation packages loc collected
  <-> y ∈ collected \/ (y = loc /\ hasOwn packages loc = true).
Proof.
  unfold byLocation. destruct (hasOwn packages loc); [rewrite add_elem|]; intuition congruence.
Qed.

Lemma byPackageName_NoDup (packages : Packages) (name : string) (collected : list string) :
  NoDup collected -> NoDup (byPackageName packages name collected).
Proof.
  intros Hnodup. rewrite byPackageName_fold. apply fold_add_NoDup.
  destruct (hasOwn packages name); [by apply add_NoDup|done].
Qed.

Lemma bySpec_NoDup (satisfies : string -> string -> bool) (packages : Packages) (name range : string) (collected : list string) :
  NoDup collected -> NoDup (bySpec satisfies packages name range collected).
Proof.
  intros Hnodup. destruct (String.eqb range "*") eqn:Hrange.
  - unfold bySpec. rewrite Hrange. by apply byPackageName_NoDup.
  - rewrite bySpec_fold by done. by apply fold_add_NoDup.
Qed.

Lemma entry_key (packages : Packages) (entry : string * PackageInfo) :
  entry ∈ packages -> hasOwn packages entry.1 = true.
Proof.
  intros Hentry. unfold hasOwn.
  destruct (proj1 (getOwn_keys packages entry.1)) as [v ->]; [|done].
  unfold keys. apply list_elem_of_fmap. by exists entry.
Qed.

(** What one spec adds: the locations it matches do not depend on what was
    collected before, and each of them is a location of the lockfile. *)
Lemma byPackageName_own (packages : Packages) (name y : string) :
  y ∈ byPackageName packages name [] -> hasOwn packages y = true.
Proof.
  rewrite byPackageName_elem.
  intros [H|[[-> H]|(entry & Hentry & _ & <-)]]; [inversion H|done|by apply entry_key].
Qed.

Lemma byPackageName_more (packages : Packages) (name : string) (collected : list string)
  (y : string) :
  y ∈ byPackageName packages name collected
  <-> y ∈ collected \/ y ∈ byPackageName packages name [].
Proof. rewrite !byPackageName_elem. rewrite elem_of_nil. tauto. Qed.

(** What one spec adds: the locations it matches do not depend on what was
    collected before, and each of them is a location of the lockfile. *)
Lemma collectSpec_elem (satisfies : string -> string -> bool)
  (validForOldPackages : string -> bool) (packages : Packages) (collected r : list string) (spec : string) :
  collectSpec satisfies validForOldPackages packages collected spec = Ok r ->
  exists r0,
    collectSpec satisfies validForOldPackages packages [] spec = Ok r0
    /\ (forall y, y ∈ r <-> y ∈ collected \/ y ∈ r0)
    /\ (forall y, y ∈ r0 -> hasOwn packages y = true)
    /\ (NoDup collected -> NoDup r).
Proof.
  unfold collectSpec.
  destruct (validForOldPackages spec).
  { intros [= <-]. eexists. split; [reflexivity|].
    split; [apply byPackageName_more|].
    split; [apply byPackageName_own|apply byPackageName_NoDup]. }
  destruct (truthy _).
  { intros [= <-]. eexists. split; [reflexivity|]. split; [|split].
    - intros y. rewrite !byLocation_elem, elem_of_nil. tauto.
    - intros y. rewrite byLocation_elem. intros [H|[-> H]]; [inversion H|done].
    - unfold byLocation. destruct (hasOwn _ _); [apply add_NoDup|done]. }
  destruct (0 <? _); [|discriminate].
  intros [= <-]. eexists. split; [reflexivity|].
  set (range := JsString.orElse _ "*").
  split; [|split; [|apply bySpec_NoDup]].
  - intros y. destruct (String.eqb range "*") eqn:Hrange.
    + unfold bySpec. rewrite Hrange. apply byPackageName_more.
    + rewrite !bySpec_elem by done. rewrite elem_of_nil. tauto.
  - intros y. destruct (String.eqb range "*") eqn:Hrange.
    + unfold bySpec. rewrite Hrange. apply byPackageName_own.
    + rewrite bySpec_elem by done.
      intros [H|(entry & Hentry & _ & <-)]; [inversion H|by apply entry_key].
Qed.


Lemma collect_single (satisfies : string -> string -> bool)
  (validForOldPackages : string -> bool) (packages : Packages) (spec : string) :
  collectLocationsFromSpecs satisfies validForOldPackages packages [spec]
  = collectSpec satisfies validForOldPackages packages [] spec.
Proof.
  unfold collectLocationsFromSpecs. simpl. by destruct (collectSpec _ _ _ _ _).
Qed.

Lemma collect_elems (satisfies : string -> string -> bool)
  (validForOldPackages : string -> bool) (packages : Packages) (specs : list string)
  (collected r : list string) :
  foldM (collectSpec satisfies validForOldPackages packages) specs collected = Ok r ->
  (NoDup collected -> NoDup r)
  /\ forall y,
       y ∈ r <->
       y ∈ collected
       \/ exists spec r0,
            spec ∈ specs
            /\ collectLocationsFromSpecs satisfies validForOldPackages packages [spec] = Ok r0
            /\ y ∈ r0.
Proof.
  revert collected; induction specs as [|spec specs IH]; intros collected; simpl.
  - intros [= <-]. split; [done|]. intros y. split; [auto|].
    intros [H|(spec & r0 & Hspec & _)]; [done|inversion Hspec].
  - destruct (collectSpec _ _ packages collected spec) as [mid|e] eqn:Hspec;
      simpl; [|discriminate].
    intros Hrest. destruct (IH _ Hrest) as [Hnodup Helem].
    destruct (collectSpec_elem _ _ _ _ _ _ Hspec) as (r0 & Hr0 & Hmid & _ & Hnd).
    split; [auto|]. intros y. rewrite Helem, Hmid. split.
    + intros [[Hy|Hy]|(s & r1 & Hs & Hr1 & Hy)]; [auto| |].
      * right. exists spec, r0. rewrite collect_single.
        split; [apply list_elem_of_here|done].
      * right. exists s, r1. split; [by apply list_elem_of_further|done].
    + intros [Hy|(s & r1 & Hs & Hr1 & Hy)]; [auto|].
      apply elem_of_cons in Hs as [->|Hs].
      * left. right. rewrite collect_single in Hr1. congruence.
      * right. by exists s, r1.
Qed.

Lemma collect_NoDup_own (satisfies : string -> string -> bool)
  (validForOldPackages : string -> bool) (packages : Packages) (specs : list string)
  (collected : list string) :
  collectLocationsFromSpecs satisfies validForOldPackages packages specs = Ok collected ->
  NoDup collected /\ forall y, y ∈ collected -> hasOwn packages y = true.
Proof.
  intros Hcollect. destruct (collect_elems _ _ _ _ _ _ Hcollect) as [Hnodup Helem].
  split; [apply Hnodup, NoDup_nil_2|].
  intros y [H|(spec & r0 & _ & Hr0 & Hy)]%Helem; [inversion H|].
  rewrite collect_single in Hr0.
  destruct (collectSpec_elem _ _ _ _ _ _ Hr0) as (r1 & Hr1 & _ & Hown & _).
  apply Hown. congruence.
Qed.

(** X8.  The locations that [collectLocationsFromSpecs] returns are locations
    of the lockfile, and none is returned twice, whatever the specs and
    however many of them match it. *)
Theorem collected_locations_distinct (satisfies : string -> string -> bool)
  (validForOldPackages : string -> bool) (packages : Packages) (specs : list string)
  (collected : list string) :
  collectLocationsFromSpecs satisfies validForOldPackages packages specs = Ok collected ->
  NoDup collected /\ forall y, y ∈ collected -> hasOwn packages y = true.
Proof. apply collect_NoDup_own. Qed.

Lemma collected_locations_distinct_witness :
  NoDup ["bar"; "foo/bar"] /\ forall y, y ∈ ["bar"; "foo/bar"] -> hasOwn Scenario.twoBars y = true.
Proof.
  apply (collected_locations_distinct Npm.satisfies Npm.validForOldPackages Scenario.twoBars
           ["bar"; "foo/bar"; "bar@2.0.0"; "bar@*"]).
  reflexivity.
Defined.

(** X9.  The locations matched by a package name: the name itself when it is
    a location of the lockfile, and every location that ends with [/] and the
    name and whose id, cut at its first [@] of index 1 or later, is the name;
    no other. *)
Theorem byPackageName_matches (packages : Packages) (name y : string) :
  y ∈ byPackageName packages name [] <->
  (y = name /\ hasOwn packages name = true)
  \/ exists info,
       (y, info) ∈ packages
       /\ JsString.endsWith y ("/" +:+ name) = true
       /\ JsString.slice (name_version info) 0
            (Some (JsString.indexOf (name_version info) "@" 1)) = name.
Proof.
  rewrite byPackageName_elem. unfold nameTest. split.
  - intros [H|[H|([loc info] & Hentry & Htest & <-)]]; [inversion H|auto|].
    right. exists info. apply andb_true_iff in Htest as [Hends Hname].
    by apply String.eqb_eq in Hname.
  - intros [H|(info & Hentry & Hends & Hname)]; [auto|].
    right. right. exists (y, info). split; [done|]. split; [|done].
    simpl. rewrite Hends. simpl. by apply String.eqb_eq.
Qed.

(** X10.  The locations matched by a name with a range other than [*]: the
    locations whose id is the name, an [@] and a version that satisfies the
    range, wherever they are in the tree (the name is not empty and has no
    [@] after its first character, or nothing is matched). *)
Theorem bySpec_matches (satisfies : string -> string -> bool) (packages : Packages)
  (name range y : string) :
  range <> "*" ->
  y ∈ bySpec satisfies packages name range [] <->
  exists info version,
    (y, info) ∈ packages
    /\ name_version info = name +:+ "@" +:+ version
    /\ name <> ""
    /\ JsString.indexOf name "@" 1 = -1
    /\ satisfies version range = true.
Proof.
  intros Hrange. apply String.eqb_neq in Hrange.
  rewrite bySpec_elem by done. unfold rangeTest. split.
  - intros [H|([loc info] & Hentry & Htest & <-)]; [inversion H|]. simpl in *.
    apply andb_true_iff in Htest as [[Hi Hname]%andb_true_iff Hsat].
    apply Z.ltb_lt in Hi. apply String.eqb_eq in Hname.
    destruct (indexOf_split _ _ Hi) as (a & b & Hid & Ha & Hat & Hlen).
    rewrite Hid, Hlen in *. rewrite slice_suffix in Hsat.
    change (a +:+ String "@" b) with (a +:+ "@" +:+ b) in Hname.
    rewrite slice_prefix in Hname. subst a.
    exists info, b. by rewrite Hid.
  - intros (info & version & Hentry & Hid & Hname & Hat & Hsat).
    right. exists (y, info). split; [done|]. split; [|done]. simpl. rewrite Hid.
    change (name +:+ "@" +:+ version) with (name +:+ String "@" version).
    rewrite indexOf_append by done. rewrite slice_suffix, Hsat.
    change (name +:+ String "@" version) with (name +:+ "@" +:+ version).
    rewrite slice_prefix, String.eqb_refl.
    replace (0 <? _) with true; [done|].
    symmetry. apply Z.ltb_lt. destruct name; [done|]. simpl String.length. lia.
Qed.

Lemma bySpec_matches_witness :
  "foo/bar" ∈ bySpec Npm.satisfies Scenario.twoBars "bar" "^2.0.0" [] <->
  exists info version,
    ("foo/bar", info) ∈ Scenario.twoBars
    /\ name_version info = "bar" +:+ "@" +:+ version
    /\ "bar" <> ""
    /\ JsString.indexOf "bar" "@" 1 = -1
    /\ Npm.satisfies version "^2.0.0" = true.
Proof.
  apply (bySpec_matches Npm.satisfies Scenario.twoBars "bar" "^2.0.0" "foo/bar").
  discriminate.
Defined.

(** X11.  The locations collected for a list of specs are the union of the
    locations collected for each spec alone. *)
Theorem collected_is_union (satisfies : string -> string -> bool)
  (validForOldPackages : string -> bool) (packages : Packages) (specs : list string)
  (collected : list string) (y : string) :
  collectLocationsFromSpecs satisfies validForOldPackages packages specs = Ok collected ->
  y ∈ collected <->
  exists spec alone,
    spec ∈ specs
    /\ collectLocationsFromSpecs satisfies validForOldPackages packages [spec] = Ok alone
    /\ y ∈ alone.
Proof.
  intros Hcollect. destruct (collect_elems _ _ _ _ _ _ Hcollect) as [_ Helem].
  rewrite Helem. split; [|auto]. by intros [H|H]; [inversion H|].
Qed.

Lemma collected_is_union_witness :
  "foo/bar" ∈ ["bar"; "foo/bar"] <->
  exists spec alone,
    spec ∈ ["bar@1.0.0"; "foo/bar"]
    /\ collectLocationsFromSpecs Npm.satisfies Npm.validForOldPackages Scenario.twoBars [spec]
       = Ok alone
    /\ "foo/bar" ∈ alone.
Proof.
  apply (collected_is_union Npm.satisfies Npm.validForOldPackages Scenario.twoBars
           ["bar@1.0.0"; "foo/bar"] ["bar"; "foo/bar"] "foo/bar").
  reflexivity.
Defined.

Lemma foldM_first_throw {A S : Type} (body : S -> A -> completion S) (l : list A) (acc : S)
  (e : exn) :
  foldM body l acc = Throw e ->
  exists before x after mid,
    l = before ++ x :: after
    /\ foldM body before acc = Ok mid
    /\ body mid x = Throw e.
Proof.
  revert acc; induction l as [|x l IH]; intros acc; simpl; [discriminate|].
  destruct (body acc x) as [acc'|e'] eqn:Hbody; simpl.
  - intros Hrest. destruct (IH _ Hrest) as (before & y & after & mid & -> & Hbefore & Hy).
    exists (x :: before), y, after, mid. split; [reflexivity|]. split; [|done].
    simpl. by rewrite Hbody.
  - intros [= <-]. by exists [], x, l, acc.
Qed.

(** X12.  When [collectLocationsFromSpecs] throws, it is at the first spec
    that is not a valid bare name, whose normalized form is not a property of
    [packages], and that has no [@] at index 1 or later: the specs before it
    were collected, and the error is the invalid-spec error for that spec;
    nothing is returned for the specs that matched. *)
Theorem collect_fails_at_first_invalid (satisfies : string -> string -> bool)
  (validForOldPackages : string -> bool) (packages : Packages) (specs : list string)
  (e : exn) :
  collectLocationsFromSpecs satisfies validForOldPackages packages specs = Throw e ->
  exists before spec after collected,
    specs = before ++ spec :: after
    /\ collectLocationsFromSpecs satisfies validForOldPackages packages before = Ok collected
    /\ e = invalidSpec spec
    /\ validForOldPackages spec = false
    /\ truthy (get packages (normalize spec)) = false
    /\ JsString.indexOf spec "@" 1 = -1.
Proof.
  intros Hthrow.
  apply foldM_first_throw in Hthrow as (before & spec & after & mid & -> & Hbefore & Hspec).
  exists before, spec, after, mid. split; [done|]. split; [done|].
  unfold collectSpec in Hspec.
  destruct (validForOldPackages spec); [discriminate|].
  destruct (truthy _); [discriminate|].
  destruct (0 <? _) eqn:Hi; [discriminate|]. injection Hspec as <-.
  repeat split. apply Z.ltb_ge in Hi.
  destruct (indexOf_nonneg spec "@" 1); [done|lia].
Qed.

Lemma collect_fails_at_first_invalid_witness :
  exists before spec after collected,
    ["bar"; "?"; "foo"; "!"] = before ++ spec :: after
    /\ collectLocationsFromSpecs Npm.satisfies Npm.validForOldPackages Scenario.twoBars before
       = Ok collected
    /\ invalidSpec "?" = invalidSpec spec
    /\ Npm.validForOldPackages spec = false
    /\ truthy (get Scenario.twoBars (normalize spec)) = false
    /\ JsString.indexOf spec "@" 1 = -1.
Proof.
  apply (collect_fails_at_first_invalid Npm.satisfies Npm.validForOldPackages
           Scenario.twoBars ["bar"; "?"; "foo"; "!"] (invalidSpec "?")).
  reflexivity.
Defined.

(** ** [explain] *)

Lemma present_sublist (fuel : nat) (packages : Packages)
  (index : gmap string (list string)) (locs : list string) (whys : list (option Why)) :
  Forall2 (fun l r => makeWhy fuel l packages index = Some (Ok r)) locs whys ->
  sublist (map location (present whys)) locs.
Proof.
  unfold present. induction 1 as [|l [w|] locs whys Hl _ IH]; simpl.
  - constructor.
  - destruct (makeWhy_present _ _ _ _ _ Hl) as (_ & _ & _ & -> & _).
    by apply sublist_skip.
  - by apply sublist_cons.
Qed.

(** X13.  The nodes that [explain] returns are for locations of the lockfile,
    one node at most for a location, in the order in which the locations
    were collected; a collected location has no node only when its id has no
    [@] at index 1 or later. *)
Theorem explain_one_node_per_location (satisfies : string -> string -> bool)
  (validForOldPackages : string -> bool) (fuel : nat) (lockfile : BunLockfile)
  (specs : list string) (whys : list Why) :
  explain satisfies validForOldPackages fuel lockfile specs = Some (Ok whys) ->
  exists collected,
    collectLocationsFromSpecs satisfies validForOldPackages (packages lockfile) specs
    = Ok collected
    /\ sublist (map location whys) collected
    /\ NoDup (map location whys)
    /\ (forall w, w ∈ whys -> hasOwn (packages lockfile) (location w) = true)
    /\ forall l, l ∈ collected -> l ∉ map location whys ->
         exists info, getOwn (packages lockfile) l = Some info
                      /\ JsString.indexOf (name_version info) "@" 1 = -1.
Proof.
  unfold explain.
  destruct (readLockfile satisfies lockfile) as [[ps index]|e] eqn:Hread; [|discriminate].
  destruct (readLockfile_indexed _ _ _ Hread) as [Hps _]. simpl in Hps. subst ps.
  destruct (collectLocationsFromSpecs _ _ _ specs) as [collected|e] eqn:Hcollect;
    [|discriminate].
  destruct (mapOutcome _ collected) as [[rs|e]|] eqn:Hmap; [|discriminate..].
  intros [= <-]. exists collected. split; [done|].
  apply mapOutcome_Forall2 in Hmap.
  pose proof (present_sublist _ _ _ _ _ Hmap) as Hsub.
  destruct (collect_NoDup_own _ _ _ _ _ Hcollect) as [Hnodup Hown].
  split; [done|]. split; [by eapply sublist_NoDup|]. split.
  - intros w Hw. apply Hown. eapply elem_of_sublist; [|exact Hsub].
    apply list_elem_of_fmap. by exists w.
  - intros l Hl Hnot. clear Hsub Hnodup Hown Hcollect.
    induction Hmap as [|l' r locs rs' Hr _ IH]; [inversion Hl|].
    apply elem_of_cons in Hl as [->|Hl].
    + destruct r as [w|]; [|by apply makeWhy_absent in Hr].
      destruct Hnot. unfold present. simpl.
      destruct (makeWhy_present _ _ _ _ _ Hr) as (_ & _ & _ & <- & _).
      apply list_elem_of_here.
    + apply IH; [done|]. intros Hin. apply Hnot. unfold present in *.
      destruct r; simpl; [by apply list_elem_of_further|done].
Qed.

Lemma explain_one_node_per_location_witness :
  exists collected,
    collectLocationsFromSpecs Npm.satisfies Npm.validForOldPackages
      (packages Scenario.malformedDependent) ["baz"; "bar"]
    = Ok collected
    /\ sublist (map location [mkWhy "bar" "1.0.0" "bar" [None]]) collected
    /\ NoDup (map location [mkWhy "bar" "1.0.0" "bar" [None]])
    /\ (forall w, w ∈ [mkWhy "bar" "1.0.0" "bar" [None]] ->
          hasOwn (packages Scenario.malformedDependent) (location w) = true)
    /\ forall l, l ∈ collected -> l ∉ map location [mkWhy "bar" "1.0.0" "bar" [None]] ->
         exists info, getOwn (packages Scenario.malformedDependent) l = Some info
                      /\ JsString.indexOf (name_version info) "@" 1 = -1.
Proof.
  apply (explain_one_node_per_location Npm.satisfies Npm.validForOldPackages 2
           Scenario.malformedDependent ["baz"; "bar"]).
  vm_compute. reflexivity.
Defined.

(** ** [expandLocation] *)

Lemma slice_rest (c : ascii) (s : string) : JsString.slice (String c s) 1 None = s.
Proof. exact (slice_suffix "" s c). Qed.

Lemma expandParts_segment (segment : string) (rest : list string) :
  atomicSegment segment = true ->
  expandParts (JsString.split segment "/" ++ rest)
  = "/node_modules/" +:+ segment +:+ expandParts rest.
Proof.
  unfold atomicSegment. intros Hatomic.
  pose proof (join_split "/" segment) as Hjoin.
  destruct (JsString.split segment "/") as [|p [|q [|r parts]]]; try discriminate.
  - simpl in Hjoin. subst p. simpl.
    apply negb_true_iff in Hatomic. by rewrite Hatomic.
  - simpl in Hjoin. subst segment. simpl. rewrite Hatomic.
    by rewrite !append_assoc.
Qed.

Lemma expandParts_segments (segments : list string) :
  Forall (fun s => atomicSegment s = true) segments ->
  expandParts (flat_map (fun s => JsString.split s "/") segments)
  = concatenate (map (fun s => "/node_modules/" +:+ s) segments).
Proof.
  induction 1 as [|s segments Hs _ IH]; [reflexivity|].
  simpl. rewrite expandParts_segment by done. rewrite IH. by rewrite append_assoc.
Qed.

Lemma concatenate_join (segments : list string) :
  segments <> [] ->
  concatenate (map (fun s => "/node_modules/" +:+ s) segments)
  = "/" +:+ JsString.join "/" (map (fun s => "node_modules/" +:+ s) segments).
Proof.
  induction segments as [|s [|t segments] IH]; [done| |]; intros _.
  - simpl. by rewrite append_empty_r.
  - change (concatenate (map _ (s :: t :: segments)))
      with (("/node_modules/" +:+ s)
            +:+ concatenate (map (fun s => "/node_modules/" +:+ s) (t :: segments))).
    rewrite IH by done.
    change (map _ (s :: t :: segments))
      with (("node_modules/" +:+ s) :: map (fun s => "node_modules/" +:+ s) (t :: segments)).
    rewrite join_cons by done. by rewrite !append_assoc.
Qed.

(** X14.  For a location made of atomic segments (plain names and
    [@scope/name] pairs, joined by [/]), [expandLocation] is the path that
    puts [node_modules/] before every segment, the segments still joined by
    [/]: a scope and its name stay together. *)
Theorem expandLocation_segments (segments : list string) :
  segments <> [] ->
  Forall (fun s => atomicSegment s = true) segments ->
  expandLocation (JsString.join "/" segments)
  = JsString.join "/" (map (fun s => "node_modules/" +:+ s) segments).
Proof.
  intros Hne Hall. unfold expandLocation.
  rewrite split_join by done. rewrite expandParts_segments by done.
  rewrite concatenate_join by done. apply slice_rest.
Qed.

Lemma expandLocation_segments_witness :
  expandLocation (JsString.join "/" ["a"; "@s/b"; "c"])
  = JsString.join "/" (map (fun s => "node_modules/" +:+ s) ["a"; "@s/b"; "c"]).
Proof.
  apply (expandLocation_segments ["a"; "@s/b"; "c"]).
  - discriminate.
  - repeat constructor.
Defined.

(** ** [format1] and [format] *)

Section Lines.

Variable satisfies : string -> string -> bool.
Variable hasColors : bool.
Variable packages : Packages.

Lemma nodes_unfold (why : Why) : nodes why = S (nodesOf (dependents why)).
Proof. by destruct why. Qed.

Lemma located_unfold (why : Why) :
  located packages why = hasOwn packages (location why) && allLocated packages (dependents why).
Proof. by destruct why. Qed.

(** The first [push] at a depth above 0 needs the location to be in the
    lockfile. *)
Lemma pushHead_nested (out : list string) (why dependency : Why) (depth : nat) :
  (hasOwn packages (location why) = true ->
   exists line, pushHead satisfies out packages why (S depth) (Some dependency)
                = Ok (out ++ [line]))
  /\ (hasOwn packages (location why) = false ->
      pushHead satisfies out packages why (S depth) (Some dependency) = Throw TypeError).
Proof.
  unfold pushHead, hasOwn. destruct (getOwn packages (location why)); split; try done; eauto.
Qed.

(** The loop over the dependents, given what [format1] does on each of
    them. *)
Lemma formatDependents_each (deps : list (option Why)) (depth : nat) (parent : Why) :
  Forall (fun dep => match dep with
                     | Some w =>
                         forall out,
                           if located packages w
                           then exists lines,
                                  format1 satisfies hasColors out packages w (S depth)
                                    (Some parent) = Ok (out ++ lines)
                                  /\ length lines = (2 * nodes w)%nat
                           else format1 satisfies hasColors out packages w (S depth)
                                  (Some parent) = Throw TypeError
                     | None => True
                     end) deps ->
  forall out,
    if allLocated packages deps
    then exists lines,
           formatDependents satisfies hasColors out packages deps (S depth) parent
           = Ok (out ++ lines)
           /\ length lines = (2 * nodesOf deps)%nat
    else formatDependents satisfies hasColors out packages deps (S depth) parent
         = Throw TypeError.
Proof.
  induction 1 as [|[w|] deps Hw _ IH]; intros out; simpl.
  - exists []. by rewrite app_nil_r.
  - specialize (Hw out). destruct (located packages w); simpl.
    + destruct Hw as (lines1 & -> & Hlen1). simpl.
      specialize (IH (out ++ lines1)). destruct (allLocated packages deps).
      * destruct IH as (lines2 & -> & Hlen2). exists (lines1 ++ lines2).
        split; [by rewrite app_assoc|]. unfold nodesOf in *. simpl.
        rewrite length_app. lia.
      * done.
    + by rewrite Hw.
  - done.
Qed.

Lemma format1_nested (why : Why) :
  forall depth dependency out,
    if located packages why
    then exists lines,
           format1 satisfies hasColors out packages why (S depth) (Some dependency)
           = Ok (out ++ lines)
           /\ length lines = (2 * nodes why)%nat
    else format1 satisfies hasColors out packages why (S depth) (Some dependency)
         = Throw TypeError.
Proof.
  induction why as [n v l ds IH] using Why_nested_ind.
  intros depth dependency out. rewrite format1_unfold, located_unfold, nodes_unfold.
  destruct (pushHead_nested out (mkWhy n v l ds) dependency depth) as [Hok Hthrow].
  cbn [location dependents] in *.
  destruct (hasOwn packages l); cbn [andb].
  - destruct Hok as [line ->]; [done|]. cbn [mbind completion_bind].
    assert (Heach : Forall (fun dep => match dep with
                     | Some w =>
                         forall out,
                           if located packages w
                           then exists lines,
                                  format1 satisfies hasColors out packages w (S (S depth))
                                    (Some (mkWhy n v l ds)) = Ok (out ++ lines)
                                  /\ length lines = (2 * nodes w)%nat
                           else format1 satisfies hasColors out packages w (S (S depth))
                                  (Some (mkWhy n v l ds)) = Throw TypeError
                     | None => True
                     end) ds).
    { eapply Forall_impl; [exact IH|]. intros [w|] Hw; [|done]. intros o. apply Hw. }
    pose proof (formatDependents_each ds (S depth) (mkWhy n v l ds) Heach
                  ((out ++ [line])
                   ++ [JsString.repeat "  " (S depth) +:+ dim hasColors (expandLocation l)]))
      as Hloop.
    destruct (allLocated packages ds).
    + destruct Hloop as (lines & -> & Hlen).
      eexists (line :: _ :: lines). split; [by rewrite <- !app_assoc|].
      simpl. lia.
    + done.
  - by rewrite Hthrow.
Qed.

(** [format1] on a top-level node. *)
Lemma format1_top (why : Why) (out : list string) :
  if printable packages why
  then exists rest,
         format1 satisfies hasColors out packages why O None
         = Ok (out ++ "" :: (name why +:+ "@" +:+ version why) :: rest)
         /\ length rest = (2 * nodes why - 1)%nat
  else format1 satisfies hasColors out packages why O None = Throw TypeError.
Proof.
  rewrite format1_unfold, nodes_unfold. unfold printable, pushHead. simpl.
  assert (Heach : Forall (fun dep => match dep with
                   | Some w =>
                       forall out,
                         if located packages w
                         then exists lines,
                                format1 satisfies hasColors out packages w 1
                                  (Some why) = Ok (out ++ lines)
                                /\ length lines = (2 * nodes w)%nat
                         else format1 satisfies hasColors out packages w 1
                                (Some why) = Throw TypeError
                   | None => True
                   end) (dependents why)).
  { apply Forall_forall. intros [w|] _; [|done]. intros o. apply format1_nested. }
  fold (allLocated packages (dependents why)).
  match goal with
  | |- context [formatDependents _ _ ?acc _ _ _ _] =>
      pose proof (formatDependents_each (dependents why) 0 why Heach acc) as Hloop
  end.
  destruct (allLocated packages (dependents why)); [|done].
  destruct Hloop as (lines & -> & Hlen). eexists (_ :: lines).
  split; [rewrite <- !app_assoc; reflexivity|]. simpl. lia.
Qed.

(** The loop of [format] over the top-level nodes. *)
Lemma format_loop (whys : list Why) (out : list string) :
  if forallb (printable packages) whys
  then exists lines,
         foldM (fun lines why => format1 satisfies hasColors lines packages why O None)
           whys out = Ok (out ++ lines)
         /\ length lines = (length whys + 2 * list_sum (map nodes whys))%nat
         /\ match whys with
            | [] => lines = []
            | why :: _ => exists rest,
                lines = "" :: (name why +:+ "@" +:+ version why) :: rest
            end
  else foldM (fun lines why => format1 satisfies hasColors lines packages why O None)
         whys out = Throw TypeError.
Proof.
  revert out; induction whys as [|why whys IH]; intros out; simpl.
  - exists []. by rewrite app_nil_r.
  - pose proof (format1_top why out) as Htop.
    destruct (printable packages why); simpl; [|by rewrite Htop].
    destruct Htop as (rest & -> & Hlen). simpl.
    specialize (IH (out ++ "" :: (name why +:+ "@" +:+ version why) :: rest)).
    destruct (forallb (printable packages) whys); [|done].
    destruct IH as (lines & -> & Hlines & _).
    exists ("" :: (name why +:+ "@" +:+ version why) :: rest ++ lines).
    split; [by rewrite <- app_assoc|]. split; [|eauto].
    simpl. rewrite length_app, Hlen, Hlines.
    pose proof (nodes_unfold why). lia.
Qed.

End Lines.

(** X15.  Below the top level, [format1] returns exactly when every node of
    the tree it is given is present and located in the lockfile, and then it
    adds two lines for every node to the output it was given; otherwise it
    throws a [TypeError]. *)
Theorem format1_returns_iff_located (satisfies : string -> string -> bool)
  (hasColors : bool) (packages : Packages) (why dependency : Why) (depth : nat)
  (out : list string) :
  if located packages why
  then exists lines,
         format1 satisfies hasColors out packages why (S depth) (Some dependency)
         = Ok (out ++ lines)
         /\ length lines = (2 * nodes why)%nat
  else format1 satisfies hasColors out packages why (S depth) (Some dependency)
       = Throw TypeError.
Proof. apply format1_nested. Qed.



(** ** [explain] and then [format] *)

Lemma versioned_getOwn (packages : Packages) (k : string) (info : PackageInfo) :
  versioned packages = true ->
  getOwn packages k = Some info ->
  0 < JsString.indexOf (name_version info) "@" 1.
Proof.
  unfold versioned. induction packages as [|[k' info'] ps IH]; simpl; [discriminate|].
  intros [Hi Hrest]%andb_true_iff.
  destruct (String.eqb k' k); [|by apply IH].
  intros [= <-]. by apply Z.ltb_lt.
Qed.

(** In a lockfile whose ids all have a version, the trees of [makeWhy] have
    no absent node. *)
Lemma makeWhy_located (packages : Packages) (index : gmap string (list string))
  (fuel : nat) (loc : string) (r : option Why) :
  versioned packages = true ->
  makeWhy fuel loc packages index = Some (Ok r) ->
  exists w, r = Some w /\ located packages w = true.
Proof.
  intros Hversioned. revert loc r; induction fuel as [|fuel IH]; intros loc r; [discriminate|].
  rewrite makeWhy_step.
  destruct (getOwn packages loc) as [info|] eqn:Hown; [|discriminate]. cbv zeta.
  pose proof (versioned_getOwn _ _ _ Hversioned Hown) as Hi.
  replace (_ <=? 0) with false by (symmetry; by apply Z.leb_gt).
  assert (Hloc : hasOwn packages loc = true) by (unfold hasOwn; by rewrite Hown).
  destruct (index !! loc) as [locs|].
  - destruct (mapOutcome _ locs) as [[ds|e]|] eqn:Hmap; [|discriminate..].
    intros [= <-]. eexists. split; [reflexivity|]. simpl. rewrite Hloc. simpl.
    apply mapOutcome_Forall2 in Hmap. clear -Hmap IH.
    induction Hmap as [|l d locs ds Hl _ IHmap]; [reflexivity|].
    simpl. destruct (IH _ _ Hl) as (w & -> & ->). exact IHmap.
  - intros [= <-]. eexists. split; [reflexivity|]. simpl. by rewrite Hloc.
Qed.

(** X17.  In a lockfile whose ids all have an [@] at index 1 or later,
    [format] does not throw on what [explain] returned for that lockfile. *)
Theorem format_of_explain_returns (satisfies : string -> string -> bool)
  (validForOldPackages : string -> bool) (hasColors : bool) (fuel : nat)
  (lockfile : BunLockfile) (specs : list string) (whys : list Why) :
  versioned (packages lockfile) = true ->
  explain satisfies validForOldPackages fuel lockfile specs = Some (Ok whys) ->
  exists text,
    format satisfies hasColors lockfile (Some whys) = Ok text
    /\ report satisfies validForOldPackages hasColors fuel lockfile specs = Some (Ok text).
Proof.
  intros Hversioned Hexplain.
  assert (Hformat : exists text, format satisfies hasColors lockfile (Some whys) = Ok text).
  { revert Hexplain. unfold explain.
    destruct (readLockfile satisfies lockfile) as [[ps index]|e] eqn:Hread; [|discriminate].
    destruct (readLockfile_indexed _ _ _ Hread) as [Hps _]. simpl in Hps. subst ps.
    destruct (collectLocationsFromSpecs _ _ _ specs) as [collected|e]; [|discriminate].
    destruct (mapOutcome _ collected) as [[rs|e]|] eqn:Hmap; [|discriminate..].
    intros [= <-]. apply mapOutcome_Forall2 in Hmap.
    assert (Hall : forallb (printable (packages lockfile)) (present rs) = true).
    { induction Hmap as [|l r locs rs' Hr _ IH]; [reflexivity|].
      destruct (makeWhy_located _ _ _ _ _ Hversioned Hr) as (w & -> & Hw).
      change (present (Some w :: rs')) with (w :: present rs').
      cbn [forallb]. rewrite IH, andb_true_r.
      rewrite located_unfold in Hw. by apply andb_true_iff in Hw as [_ Hw]. }
    destruct (present rs) as [|why whys'] eqn:Hpresent; [by exists ""|].
    unfold format. rewrite Hread. cbn [mbind completion_bind fst].
    pose proof (format_loop satisfies hasColors (packages lockfile) (why :: whys') [])
      as Hloop.
    rewrite Hall in Hloop. destruct Hloop as (lines & Hlines & _).
    rewrite Hlines. by exists (JsString.join JsString.newline (tail ([] ++ lines))). }
  destruct Hformat as [text Htext]. exists text. split; [done|].
  unfold report. by rewrite Hexplain, Htext.
Qed.

Lemma format_of_explain_returns_witness :
  exists text,
    format Npm.satisfies true Scenario.fooBar (Some [Scenario.barNode]) = Ok text
    /\ report Npm.satisfies Npm.validForOldPackages true 2 Scenario.fooBar ["bar"]
       = Some (Ok text).
Proof.
  apply (format_of_explain_returns Npm.satisfies Npm.validForOldPackages true 2
           Scenario.fooBar ["bar"] [Scenario.barNode]); reflexivity.
Defined.

(** ** [normalize] *)

Lemma replaceChar_find (c d : ascii) (s : string) :
  c <> d -> JsString.find c (JsString.replaceChar c d s) = None.
Proof.
  intros Hne. induction s as [|e s IH]; simpl; [done|].
  rewrite IH. destruct (Ascii.eqb_spec e c) as [->|He].
  - by rewrite (proj2 (Ascii.eqb_neq d c)).
  - by rewrite (proj2 (Ascii.eqb_neq e c)).
Qed.

Lemma replaceChar_same (c d : ascii) (s : string) :
  JsString.find c s = None -> JsString.replaceChar c d s = s.
Proof.
  induction s as [|e s IH]; simpl; [done|].
  destruct (Ascii.eqb e c); [discriminate|].
  destruct (JsString.find c s); [discriminate|]. intros _. by rewrite IH.
Qed.

Lemma replaceAll_go_find (c : ascii) (pat by_ : string) (skip : nat) (s : string) :
  JsString.find c s = None -> JsString.find c by_ = None ->
  JsString.find c (JsString.replaceAll_go pat by_ skip s) = None.
Proof.
  intros Hs Hby. revert skip; induction s as [|e s IH]; intros skip; [done|].
  simpl in Hs. destruct (Ascii.eqb e c) eqn:He; [discriminate|].
  destruct (JsString.find c s); [discriminate|].
  cbn [JsString.replaceAll_go]. destruct skip as [|k]; [|by apply IH].
  destruct (JsString.startsWith _ pat).
  - apply find_append_none; [done|by apply IH].
  - simpl. rewrite He. by rewrite IH.
Qed.

Lemma replaceAll_go_same (pat by_ : string) (s : string) :
  occurs pat s = false -> JsString.replaceAll_go pat by_ O s = s.
Proof.
  induction s as [|e s IH]; [done|].
  cbn [occurs JsString.replaceAll_go]. intros [Hhere Hrest]%orb_false_iff.
  rewrite Hhere. by rewrite IH.
Qed.

Lemma normalize_plain (s : string) : plainPath s = true -> normalize s = s.
Proof.
  unfold plainPath, normalize.
  destruct (JsString.find JsString.backslash s) eqn:Hfind; [discriminate|].
  intros Hocc%negb_true_iff. rewrite replaceChar_same by done.
  by apply replaceAll_go_same.
Qed.

(** X18.  What [normalize] makes of a spec has no backslash left. *)
Theorem normalize_no_backslash (spec : string) :
  JsString.find JsString.backslash (normalize spec) = None.
Proof.
  unfold normalize. apply replaceAll_go_find; [|reflexivity].
  apply replaceChar_find. discriminate.
Qed.

(** X19.  A spec without backslash and without [/node_modules/] is its own
    normalized form; when such a spec is not a valid bare name and is a
    location of the lockfile, as a nested location is, it matches that
    location and no other. *)
Theorem plain_location_matches_itself (satisfies : string -> string -> bool)
  (validForOldPackages : string -> bool) (packages : Packages) (spec : string) :
  plainPath spec = true ->
  validForOldPackages spec = false ->
  hasOwn packages spec = true ->
  normalize spec = spec
  /\ collectLocationsFromSpecs satisfies validForOldPackages packages [spec] = Ok [spec].
Proof.
  intros Hplain Hvalid Hown. pose proof (normalize_plain spec Hplain) as Hnorm.
  split; [done|]. rewrite collect_single. unfold collectSpec.
  rewrite Hvalid, Hnorm. unfold get, byLocation. rewrite Hown.
  unfold hasOwn in Hown. by destruct (getOwn packages spec).
Qed.

Lemma plain_location_matches_itself_witness :
  normalize "foo/bar" = "foo/bar"
  /\ collectLocationsFromSpecs Npm.satisfies Npm.validForOldPackages Scenario.twoBars
       ["foo/bar"] = Ok ["foo/bar"].
Proof.
  apply (plain_location_matches_itself Npm.satisfies Npm.validForOldPackages
           Scenario.twoBars "foo/bar"); reflexivity.
Defined.

(** Normalizing once may leave a [/node_modules/] behind: the matches of the
    pattern do not overlap. *)
Example normalize_twice :
  normalize "a/node_modules/node_modules/b" = "a/node_modules/b"
  /\ normalize "a/node_modules/b" = "a/b".
Proof. split; reflexivity. Qed.

(** ** The candidates of [iterateLocations] *)

Lemma atomicParts_nonempty (raw : list string) : raw <> [] -> atomicParts raw <> [].
Proof.
  destruct raw as [|part rest]; [done|]. intros _. simpl.
  destruct (JsString.firstIs part "@"); [by destruct rest|done].
Qed.

(** X20.  Whatever the directory, [iterateLocations] yields at least two
    candidates and at most one more than the directory has parts between its
    slashes; the last candidate is the bare name, and every candidate before
    it ends with [/] and the name. *)
Theorem iterateLocations_shape (dir name : string) :
  (2 <= length (iterateLocations dir name) <= S (length (JsString.split dir "/")))%nat
  /\ exists nested,
       iterateLocations dir name = nested ++ [name]
       /\ forall c, c ∈ nested -> exists prefix, c = prefix +:+ "/" +:+ name.
Proof.
  split.
  - split; [|apply iterateLocations_length].
    unfold iterateLocations. rewrite length_app, yieldPrefixes_length. simpl.
    pose proof (atomicParts_nonempty (JsString.split dir "/")
                  (split_go_nonempty "/" dir [])) as Hparts.
    destruct (atomicParts (JsString.split dir "/")); [done|]. simpl. lia.
  - eexists. split; [reflexivity|].
    intros c Hc. apply yieldPrefixes_slash in Hc as [prefix ->]. by exists prefix.
Qed.

(** ** [rangeOf] *)

Lemma find_first {A : Type} (test : A -> bool) (l : list A) :
  match List.find test l with
  | Some x => exists before after,
      l = before ++ x :: after /\ test x = true /\ forall y, y ∈ before -> test y = false
  | None => forall y, y ∈ l -> test y = false
  end.
Proof.
  induction l as [|x l IH]; simpl; [intros y Hy; inversion Hy|].
  destruct (test x) eqn:Hx.
  - exists [], l. split; [done|]. split; [done|]. intros y Hy. inversion Hy.
  - destruct (List.find test l) as [z|].
    + destruct IH as (before & after & -> & Hz & Hbefore).
      exists (x :: before), after. split; [done|]. split; [done|].
      intros y [->|Hy]%elem_of_cons; [done|by apply Hbefore].
    + intros y [->|Hy]%elem_of_cons; [done|by apply IH].
Qed.

(** X21.  The range that [rangeOf] returns is the first range that the
    package declares on the name, among its [dependencies] and then its
    [optionalDependencies], and that the version satisfies; it returns
    nothing exactly when the version satisfies no range declared on the
    name. *)
Theorem rangeOf_first_satisfied (satisfies : string -> string -> bool) (info : PackageInfo)
  (name version : string) :
  match rangeOf satisfies info name version with
  | Some range =>
      satisfies version range = true
      /\ exists before after,
           declarations info = before ++ (name, range) :: after
           /\ forall r, (name, r) ∈ before -> satisfies version r = false
  | None => forall r, (name, r) ∈ declarations info -> satisfies version r = false
  end.
Proof.
  rewrite rangeOf_firstSatisfied. unfold firstSatisfied.
  pose proof (find_first (fun dep : string * string =>
                            String.eqb dep.1 name && satisfies version dep.2)
                (declarations info)) as Hfind.
  destruct (List.find _ (declarations info)) as [[n r]|]; simpl in *.
  - destruct Hfind as (before & after & Hdecl & [Hn Hsat]%andb_true_iff & Hbefore).
    apply String.eqb_eq in Hn as ->. split; [done|].
    exists before, after. split; [done|]. intros r' Hr'.
    specialize (Hbefore _ Hr'). simpl in Hbefore. by rewrite String.eqb_refl in Hbefore.
  - intros r Hr. specialize (Hfind _ Hr). simpl in Hfind.
    by rewrite String.eqb_refl in Hfind.
Qed.

(** ** From a declaration to the tree *)

Lemma Forall2_elem {A B : Type} (P : A -> B -> Prop) (l : list A) (k : list B) (x : A) :
  Forall2 P l k -> x ∈ l -> exists y, y ∈ k /\ P x y.
Proof.
  induction 1 as [|a b l k Hab _ IH]; intros Hx; [inversion Hx|].
  apply elem_of_cons in Hx as [->|Hx].
  - exists b. split; [apply list_elem_of_here|done].
  - destruct (IH Hx) as (y & Hy & Hxy). exists y. split; [by apply list_elem_of_further|done].
Qed.

Lemma getOwn_entry {A : Type} (o : list (string * A)) (k : string) (v : A) :
  getOwn o k = Some v -> (k, v) ∈ o.
Proof.
  induction o as [|[k' v'] o IH]; simpl; [discriminate|].
  destruct (String.eqb_spec k' k) as [->|Hne].
  - intros [= ->]. apply list_elem_of_here.
  - intros H. by apply list_elem_of_further, IH.
Qed.

(** X22.  When the package at a location, with an id that has a version,
    declares a dependency, and the loop over the candidates of that
    declaration breaks at the location [target], then the node that [makeWhy]
    returns for [target], with the index of [readLockfile], has among its
    dependents a node for the requiring location. *)
Theorem declaration_in_tree (satisfies : string -> string -> bool)
  (lockfile : BunLockfile) (index : gmap string (list string)) (fuel : nat)
  (requiring target : string) (info : PackageInfo) (dep : string * string) (why : Why) :
  readLockfile satisfies lockfile = Ok (packages lockfile, index) ->
  getOwn (packages lockfile) requiring = Some info ->
  0 < JsString.indexOf (name_version info) "@" 1 ->
  dep ∈ declarations info ->
  firstMatch satisfies (packages lockfile) dep.2 (iterateLocations requiring dep.1)
  = Ok (Some target) ->
  makeWhy fuel target (packages lockfile) index = Some (Ok (Some why)) ->
  exists dependent, Some dependent ∈ dependents why /\ location dependent = requiring.
Proof.
  intros Hread Hown Hid Hdep Hfirst Hwhy.
  assert (Hedge : requiring ∈ default [] (index !! target)).
  { pose proof (readLockfile_edges _ _ _ Hread target) as Hedges. simpl in Hedges.
    rewrite Hedges. apply list_elem_of_In, in_flat_map. exists (requiring, info).
    split; [by apply list_elem_of_In, getOwn_entry|].
    unfold edgesOf. apply in_flat_map. exists dep. split; [by apply list_elem_of_In|].
    simpl. rewrite Hfirst, String.eqb_refl. by left. }
  destruct (makeWhy_present _ _ _ _ _ Hwhy) as (_ & _ & _ & _ & _ & _ & Hdeps).
  destruct fuel as [|fuel]; [done|].
  apply mapOutcome_Forall2 in Hdeps.
  destruct (Forall2_elem _ _ _ _ Hdeps Hedge) as ([w|] & Hin & Hw).
  - exists w. split; [done|].
    by destruct (makeWhy_present _ _ _ _ _ Hw) as (_ & _ & _ & Hloc & _).
  - apply makeWhy_absent in Hw as (info' & Hown' & Hi'). exfalso.
    assert (info' = info) as -> by congruence. lia.
Qed.

Lemma declaration_in_tree_witness :
  exists dependent,
    Some dependent ∈ dependents Scenario.barNode /\ location dependent = "foo".
Proof.
  apply (declaration_in_tree Npm.satisfies Scenario.fooBar {["foo/bar" := ["foo"]]} 2
           "foo" "foo/bar" (Scenario.record "foo@1.0.0" (Some [("bar", "^1.0.0")]) None)
           ("bar", "^1.0.0")).
  - vm_compute. reflexivity.
  - reflexivity.
  - reflexivity.
  - apply list_elem_of_here.
  - reflexivity.
  - reflexivity.
Defined.
